(** * The label stabilizer of [AnglesToDetectionCalculator]

    A shallow embedding of the stabilizing part of
    [mediapipe/calculators/util/angles_to_detection_calculator.cc]:
    the member function [mostFrequent] and the guard of [Process] that
    calls it.  Scores are IEEE-754 binary32 values ([float]), time stamps
    are binary64 values ([double]); both are represented by [spec_float]
    with the rounding operations of [SpecFloat] at the matching precision.
    The map [trackInferences] is a [gmap] from labels to [attr]. *)

From Stdlib Require Import ZArith SpecFloat.
From stdpp Require Import base option list gmap.

Local Open Scope Z_scope.

(** ** Machine arithmetic *)

(** [float]: binary32, 24 bits of precision, exponents below 128. *)
Module F32.
Definition prec : Z := 24.
Definition emax : Z := 128.
Definition add : spec_float → spec_float → spec_float := SFadd prec emax.
Definition div : spec_float → spec_float → spec_float := SFdiv prec emax.
(** Conversion of an integer to [float] (round to nearest even). *)
Definition of_int (z : Z) : spec_float := binary_normalize prec emax z 0 false.
(** The [float] nearest to the decimal fraction [n / d]. *)
Definition of_ratio (n d : Z) : spec_float := div (of_int n) (of_int d).
End F32.

(** [double]: binary64, 53 bits of precision, exponents below 1024. *)
Module F64.
Definition prec : Z := 53.
Definition emax : Z := 1024.
Definition sub : spec_float → spec_float → spec_float := SFsub prec emax.
Definition of_int (z : Z) : spec_float := binary_normalize prec emax z 0 false.
(** [a >= b] on doubles; false as soon as one side is a NaN. *)
Definition geb (a b : spec_float) : bool := SFleb b a.
(** Contextual conversion to [bool]: everything but a zero is true. *)
Definition to_bool (a : spec_float) : bool :=
  match a with
  | S754_zero _ => false
  | _ => true
  end.
Definition zero : spec_float := S754_zero false.
End F64.

Definition INT32_MIN : Z := - 2 ^ 31.
Definition INT32_MAX : Z := 2 ^ 31 - 1.

(** Modelled from the spec: [queue_size] is an integer option; it is taken
    to be an [int32] field, and this is its range. *)
Definition int32_range (z : Z) : Prop := INT32_MIN ≤ z ≤ INT32_MAX.

(** In [inferenceQueue.size() >= options_.queue_size()] the signed option is
    converted to [size_t] (64 bits, unsigned) before the comparison. *)
Definition size_t_of_int (z : Z) : Z := z mod 2 ^ 64.

(** ** Data *)

Record inValues_t : Type := mk_inValues { score_ : spec_float; label_ : Z }.

(** [struct attr] local to [mostFrequent]. *)
Record attr : Type := mk_attr { sumScores : spec_float; counts : Z }.

(** [struct highestOccurrence_t] local to [mostFrequent]. *)
Record highestOccurrence_t : Type := mk_highest { label : Z; count : Z }.

(** Modelled from the spec: the message [AnglesToDetectionCalculatorOptions]
    is generated from a [.proto] file that is not part of the sources.  It
    has the two options the calculator reads: the integer [queue_size] and
    the optional floating-point [queue_time_out_s], which comes with its
    presence bit and is taken already widened to the [double] it is
    compared with. *)
Record Options : Type := mk_options {
  queue_size : Z;
  has_queue_time_out_s : bool;
  queue_time_out_s : spec_float
}.

(** The private members of the calculator that [mostFrequent] uses. *)
Record Calculator : Type := mk_calculator {
  inferenceQueue : list inValues_t;
  startingGestureTime : spec_float
}.

(** Modelled from the spec: the calculator is constructed by the framework,
    which is not part of the sources; it starts with an empty queue and a
    zero time stamp. *)
Definition new_calculator : Calculator :=
  {| inferenceQueue := []; startingGestureTime := F64.zero |}.

(** ** [mostFrequent] *)

(** [trackInferences[k]]: the entry of [k], a zeroed [attr] when absent. *)
Definition track_at (trackInferences : gmap Z attr) (k : Z) : attr :=
  default {| sumScores := S754_zero false; counts := 0 |} (trackInferences !! k).

(** One iteration of the loop over the queue (lines 180-205). *)
Definition track_step (acc : gmap Z attr * highestOccurrence_t)
    (cInference : inValues_t) : gmap Z attr * highestOccurrence_t :=
  let '(trackInferences, highestOccurrence) := acc in
  let trackInferences :=
    match trackInferences !! label_ cInference with
    | None =>
        <[label_ cInference :=
            {| sumScores := score_ cInference; counts := 1 |}]> trackInferences
    | Some a =>
        <[label_ cInference :=
            {| sumScores := F32.add (sumScores a) (score_ cInference);
               counts := counts a + 1 |}]> trackInferences
    end in
  if count highestOccurrence <? counts (track_at trackInferences (label_ cInference))
  then (trackInferences,
        {| label := label_ cInference;
           count := counts (track_at trackInferences (label_ cInference)) |})
  else (trackInferences, highestOccurrence).

(** The whole loop, from an empty map and a zeroed record holder. *)
Definition track_loop (queue : list inValues_t) : gmap Z attr * highestOccurrence_t :=
  foldl track_step (∅, {| label := 0; count := 0 |}) queue.

(** Lines 180-209: the vote over the queue and the value written back to
    [currentInference]. *)
Definition aggregate (queue : list inValues_t) : inValues_t :=
  let '(trackInferences, highestOccurrence) := track_loop queue in
  {| score_ := F32.div (sumScores (track_at trackInferences (label highestOccurrence)))
                       (F32.of_int (count highestOccurrence));
     label_ := label highestOccurrence |}.

(** Line 166. *)
Definition emplace_back (st : Calculator) (currentInference : inValues_t) : Calculator :=
  {| inferenceQueue := inferenceQueue st ++ [currentInference];
     startingGestureTime := startingGestureTime st |}.

(** The condition under which line 171 runs. *)
Definition time_out_elapsed (o : Options) (st : Calculator)
    (currGestureTime : spec_float) : bool :=
  if has_queue_time_out_s o && F64.to_bool (startingGestureTime st)
  then F64.geb (F64.sub currGestureTime (startingGestureTime st)) (queue_time_out_s o)
  else false.

(** Lines 168-174: the time-out check and the new time stamp. *)
Definition check_time_out (o : Options) (st : Calculator)
    (currGestureTime : spec_float) : Calculator :=
  {| inferenceQueue :=
       if time_out_elapsed o st currGestureTime then [] else inferenceQueue st;
     startingGestureTime := currGestureTime |}.

(** Lines 177-212.  Erasing the first element of an empty vector is
    undefined: the model has no result there. *)
Definition vote (o : Options) (st : Calculator) (currentInference : inValues_t)
    : option (Calculator * inValues_t) :=
  if size_t_of_int (queue_size o) <=? Z.of_nat (length (inferenceQueue st)) then
    match inferenceQueue st with
    | [] => None
    | _ :: queue =>
        Some ({| inferenceQueue := queue;
                 startingGestureTime := startingGestureTime st |},
              aggregate queue)
    end
  else Some (st, currentInference).

Definition mostFrequent (o : Options) (st : Calculator)
    (currentInference : inValues_t) (currGestureTime : spec_float)
    : option (Calculator * inValues_t) :=
  vote o (check_time_out o (emplace_back st currentInference) currGestureTime)
       currentInference.

(** ** [Process] *)

(** Lines 121-129 of [Process]: the stabilizer is used only when
    [queue_size] exceeds one, and the label and score of
    [currentInference] are what the emitted detection carries.  This is the
    [update] operation of the stabilizer. *)
Definition Process (o : Options) (st : Calculator)
    (currentInference : inValues_t) (timestamp : spec_float)
    : option (Calculator * inValues_t) :=
  if 1 <? queue_size o
  then mostFrequent o st currentInference timestamp
  else Some (st, currentInference).

(** A stream of packets through [Process], one call per packet. *)
Fixpoint run (o : Options) (st : Calculator)
    (packets : list (inValues_t * spec_float))
    : option (Calculator * list inValues_t) :=
  match packets with
  | [] => Some (st, [])
  | (currentInference, timestamp) :: packets =>
      '(st, out) ← Process o st currentInference timestamp;
      '(st, outs) ← run o st packets;
      Some (st, out :: outs)
  end.

(** The states a calculator can be in after some calls of [Process]. *)
Inductive reachable (o : Options) : Calculator → Prop :=
  | reachable_new : reachable o new_calculator
  | reachable_Process st currentInference timestamp st' out :
      reachable o st →
      Process o st currentInference timestamp = Some (st', out) →
      reachable o st'.

(** ** The worked example *)

Definition example_options : Options :=
  {| queue_size := 3; has_queue_time_out_s := false; queue_time_out_s := F64.zero |}.

Definition example_packets : list (inValues_t * spec_float) :=
  [ ({| score_ := F32.of_ratio 5 10; label_ := 1 |}, F64.of_int 0);
    ({| score_ := F32.of_ratio 7 10; label_ := 1 |}, F64.of_int 1);
    ({| score_ := F32.of_ratio 9 10; label_ := 2 |}, F64.of_int 2);
    ({| score_ := F32.of_ratio 6 10; label_ := 1 |}, F64.of_int 3) ].

(** ** What the vote is compared with *)

(** The number of entries of a window that carry label [l]. *)
Definition occurrences (l : Z) (w : list inValues_t) : Z :=
  Z.of_nat (length (filter (λ c, label_ c = l) w)).

(** The scores of the entries that carry label [l], in arrival order. *)
Definition scores_of (l : Z) (w : list inValues_t) : list spec_float :=
  score_ <$> filter (λ c, label_ c = l) w.

(** The [float] sum of a list of scores, added from the first to the last. *)
Definition sum_f32 (ss : list spec_float) : spec_float :=
  match ss with
  | [] => S754_zero false
  | s :: ss => foldl F32.add s ss
  end.

Definition sum_scores (l : Z) (w : list inValues_t) : spec_float :=
  sum_f32 (scores_of l w).

(** Label [l] is the first label whose count reaches [n] while the window
    [w] is gone through from the front: it does so at entry [x], and no
    label has [n] occurrences before [x]. *)
Definition first_to_reach (w : list inValues_t) (l n : Z) : Prop :=
  ∃ p x s, w = p ++ x :: s ∧ label_ x = l ∧
           occurrences l (p ++ [x]) = n ∧ ∀ l', occurrences l' p < n.

(** What the record holder is once the loop has gone through [w]. *)
Definition highest_of (w : list inValues_t) (hi : highestOccurrence_t) : Prop :=
  (∀ l, occurrences l w ≤ count hi) ∧
  (w = [] → hi = {| label := 0; count := 0 |}) ∧
  (w ≠ [] → first_to_reach w (label hi) (count hi)).

(** The map the loop has built once it has gone through [w]. *)
Definition tracked (w : list inValues_t) (trackInferences : gmap Z attr) : Prop :=
  ∀ l, trackInferences !! l =
       if decide (occurrences l w = 0) then None
       else Some {| sumScores := sum_scores l w; counts := occurrences l w |}.

(** Whether the vote of lines 177-212 runs on a call: [Process] calls
    [mostFrequent], and the queue has reached [queue_size] after the append
    and the time-out check. *)
Definition aggregation_runs (o : Options) (st : Calculator)
    (currentInference : inValues_t) (timestamp : spec_float) : bool :=
  (1 <? queue_size o) &&
  (size_t_of_int (queue_size o) <=?
     Z.of_nat (length (inferenceQueue
       (check_time_out o (emplace_back st currentInference) timestamp)))).

(** The outputs the worked example of the specification announces. *)
Definition example_announced : list inValues_t :=
  [ {| score_ := F32.of_ratio 5 10; label_ := 1 |};
    {| score_ := F32.of_ratio 7 10; label_ := 1 |};
    {| score_ := F32.of_ratio 6 10; label_ := 1 |};
    {| score_ := F32.of_ratio 65 100; label_ := 1 |} ].

(** The zero that stands for a time stamp not yet recorded (of either
    sign, as the conversion to [bool] does not tell them apart). *)
Definition is_zero (a : spec_float) : Prop := ∃ s, a = S754_zero s.

(** A stabilizer over three slots that resets after a gap of one second,
    and its state after a first packet at second 1. *)
Definition demo_options : Options :=
  {| queue_size := 3; has_queue_time_out_s := true;
     queue_time_out_s := F64.of_int 1 |}.

Definition demo_state : Calculator :=
  {| inferenceQueue := [ {| score_ := F32.of_ratio 5 10; label_ := 1 |} ];
     startingGestureTime := F64.of_int 1 |}.

(** A stabilizer over four slots without time-out, with three entries
    in its queue. *)
Definition full_options : Options :=
  {| queue_size := 4; has_queue_time_out_s := false;
     queue_time_out_s := F64.zero |}.

Definition full_state : Calculator :=
  {| inferenceQueue :=
       [ {| score_ := F32.of_ratio 5 10; label_ := 1 |};
         {| score_ := F32.of_ratio 7 10; label_ := 1 |};
         {| score_ := F32.of_ratio 9 10; label_ := 2 |} ];
     startingGestureTime := F64.of_int 2 |}.

(** A window in which labels 2 and 1 end with one entry each. *)
Definition tie_window : list inValues_t :=
  [ {| score_ := F32.of_ratio 9 10; label_ := 2 |};
    {| score_ := F32.of_ratio 6 10; label_ := 1 |} ].

(** A configuration that leaves the stabilizer disabled. *)
Definition single_options : Options :=
  {| queue_size := 1; has_queue_time_out_s := true;
     queue_time_out_s := F64.of_int 1 |}.

(** A stabilizer over three slots that resets after a gap of ten seconds,
    three packets stamped -2, -1 and 0, and the state they leave: the
    time stamp recorded by the third call is zero. *)
Definition gap_options : Options :=
  {| queue_size := 3; has_queue_time_out_s := true;
     queue_time_out_s := F64.of_int 10 |}.

Definition gap_packets : list (inValues_t * spec_float) :=
  [ ({| score_ := F32.of_ratio 5 10; label_ := 1 |}, F64.of_int (-2));
    ({| score_ := F32.of_ratio 7 10; label_ := 1 |}, F64.of_int (-1));
    ({| score_ := F32.of_ratio 9 10; label_ := 2 |}, F64.of_int 0) ].

Definition gap_state : Calculator :=
  {| inferenceQueue :=
       [ {| score_ := F32.of_ratio 7 10; label_ := 1 |};
         {| score_ := F32.of_ratio 9 10; label_ := 2 |} ];
     startingGestureTime := F64.of_int 0 |}.

(** A stabilizer over two slots, and its state after a first packet. *)
Definition two_options : Options :=
  {| queue_size := 2; has_queue_time_out_s := false;
     queue_time_out_s := F64.zero |}.

Definition two_state : Calculator :=
  {| inferenceQueue := [ {| score_ := F32.of_ratio 5 10; label_ := 1 |} ];
     startingGestureTime := F64.of_int 1 |}.

(** The options as they are when [queue_size] is left at zero and a
    time-out of one second is set. *)
Definition zero_options : Options :=
  {| queue_size := 0; has_queue_time_out_s := true;
     queue_time_out_s := F64.of_int 1 |}.

(** ** A stabilizer without memory of its own

    What a sliding-window vote over the history of observations returns:
    the raw observation while fewer than [queue_size] observations have
    been seen, the vote over the newest [queue_size - 1] ones afterwards. *)

(** The newest [n] entries of a history. *)
Definition newest (n : nat) (history : list inValues_t) : list inValues_t :=
  drop (length history - n) history.

Definition sliding_output (queue_size : Z) (seen : list inValues_t)
    (c : inValues_t) : inValues_t :=
  if Z.of_nat (length seen) + 1 <? queue_size then c
  else aggregate (newest (Z.to_nat (queue_size - 1)) (seen ++ [c])).

Fixpoint sliding_outputs (queue_size : Z) (seen inputs : list inValues_t)
    : list inValues_t :=
  match inputs with
  | [] => []
  | c :: inputs =>
      sliding_output queue_size seen c
        :: sliding_outputs queue_size (seen ++ [c]) inputs
  end.

(** ** The selection loop of [Process] *)

(** [a > b] on floats; false as soon as one side is a NaN. *)
Definition float_gtb (a b : spec_float) : bool := SFltb b a.

(** One iteration of the loop of lines 114-119, for index [i].  Reading
    [raw_floats[i]] outside the buffer of the tensor is undefined: the
    model has no result there. *)
Definition select_step (raw_floats : list spec_float)
    (acc : option inValues_t) (i : nat) : option inValues_t :=
  currentInference ← acc;
  x ← raw_floats !! i;
  Some (if float_gtb x (score_ currentInference)
        then {| score_ := x; label_ := Z.of_nat i |}
        else currentInference).

(** Lines 111-119: the loop over the first [n] floats of the tensor, where
    [n] is [raw_tensor->dims->data[1]].  [currentInference] is declared
    without an initial value (line 111); the value it holds when the loop
    starts is a parameter. *)
Definition select (raw_floats : list spec_float) (n : Z)
    (currentInference : inValues_t) : option inValues_t :=
  foldl (select_step raw_floats) (Some currentInference) (seq 0 (Z.to_nat n)).

(** What the loop has established once it has gone through the first [k]
    floats: no float met is greater than the score held, and the value
    held is the initial one or the first float that reaches its score. *)
Definition selected (raw_floats : list spec_float) (init : inValues_t)
    (k : nat) (r : inValues_t) : Prop :=
  (∀ j x, (j < k)%nat → raw_floats !! j = Some x →
          float_gtb x (score_ r) = false) ∧
  (r = init ∨
   ∃ i, (i < k)%nat ∧ label_ r = Z.of_nat i ∧
        raw_floats !! i = Some (score_ r) ∧
        float_gtb (score_ r) (score_ init) = true ∧
        ∀ j x, (j < i)%nat → raw_floats !! j = Some x →
               SFleb (score_ r) x = false).

(** The scores of a tensor with four classes. *)
Definition demo_floats : list spec_float :=
  [ F32.of_ratio 1 10; F32.of_ratio 7 10; S754_nan; F32.of_ratio 7 10 ].

(** A queue in which the outlier is the entry the vote meets first:
    after the call erases the oldest entry, label 2 heads the window. *)
Definition outlier_state : Calculator :=
  {| inferenceQueue :=
       [ {| score_ := F32.of_ratio 5 10; label_ := 1 |};
         {| score_ := F32.of_ratio 9 10; label_ := 2 |};
         {| score_ := F32.of_ratio 7 10; label_ := 1 |} ];
     startingGestureTime := F64.of_int 2 |}.

(** * Properties *)

(** ** Counting *)

Lemma occurrences_nil l : occurrences l [] = 0.
Proof. reflexivity. Qed.

Lemma occurrences_nonneg l w : 0 ≤ occurrences l w.
Proof. unfold occurrences. lia. Qed.

Lemma occurrences_snoc l w c :
  occurrences l (w ++ [c]) =
  occurrences l w + (if decide (label_ c = l) then 1 else 0).
Proof.
  unfold occurrences. rewrite filter_app, length_app.
  rewrite filter_cons, filter_nil.
  destruct (decide (label_ c = l)); simpl; lia.
Qed.

Lemma occurrences_le_length l w : occurrences l w ≤ Z.of_nat (length w).
Proof.
  unfold occurrences. pose proof (length_filter (λ c, label_ c = l) w). lia.
Qed.

Lemma sum_f32_snoc ss s :
  sum_f32 (ss ++ [s]) =
  match ss with [] => s | _ :: _ => F32.add (sum_f32 ss) s end.
Proof.
  destruct ss as [|s0 ss]; [reflexivity|].
  simpl. by rewrite foldl_app.
Qed.

Lemma scores_of_snoc l w c :
  scores_of l (w ++ [c]) =
  scores_of l w ++ (if decide (label_ c = l) then [score_ c] else []).
Proof.
  unfold scores_of. rewrite filter_app, fmap_app, filter_cons, filter_nil.
  by destruct (decide (label_ c = l)).
Qed.

Lemma scores_of_nil_iff l w : scores_of l w = [] ↔ occurrences l w = 0.
Proof.
  unfold scores_of, occurrences.
  destruct (filter _ w); simpl; split; intros; try done; lia.
Qed.

Lemma sum_scores_snoc_ne l w c :
  label_ c ≠ l → sum_scores l (w ++ [c]) = sum_scores l w.
Proof.
  intros Hne. unfold sum_scores. rewrite scores_of_snoc.
  destruct (decide (label_ c = l)); [done|]. by rewrite app_nil_r.
Qed.

Lemma sum_scores_snoc_first w c :
  occurrences (label_ c) w = 0 →
  sum_scores (label_ c) (w ++ [c]) = score_ c.
Proof.
  intros H0. unfold sum_scores. rewrite scores_of_snoc.
  destruct (decide (label_ c = label_ c)); [|done].
  apply scores_of_nil_iff in H0. by rewrite H0.
Qed.

Lemma sum_scores_snoc_next w c :
  occurrences (label_ c) w ≠ 0 →
  sum_scores (label_ c) (w ++ [c]) =
  F32.add (sum_scores (label_ c) w) (score_ c).
Proof.
  intros H0. unfold sum_scores. rewrite scores_of_snoc.
  destruct (decide (label_ c = label_ c)); [|done].
  rewrite sum_f32_snoc.
  destruct (scores_of (label_ c) w) eqn:E; [|done].
  by apply scores_of_nil_iff in E.
Qed.

(** ** The loop of [mostFrequent] *)

Lemma occurrences_app_le l p s : occurrences l p ≤ occurrences l (p ++ s).
Proof.
  unfold occurrences. rewrite filter_app, length_app. lia.
Qed.

Lemma first_to_reach_count w l n :
  first_to_reach w l n → (∀ l', occurrences l' w ≤ n) → occurrences l w = n.
Proof.
  intros (p & x & s & -> & Hx & Hn & _) Hmax.
  pose proof (Hmax l) as Hle.
  pose proof (occurrences_app_le l (p ++ [x]) s) as Hge.
  rewrite <- app_assoc in Hge. simpl in Hge. lia.
Qed.

Lemma track_loop_snoc w c :
  track_loop (w ++ [c]) = track_step (track_loop w) c.
Proof. unfold track_loop. by rewrite foldl_app. Qed.

Lemma track_at_tracked w tr l :
  tracked w tr →
  track_at tr l =
  if decide (occurrences l w = 0)
  then {| sumScores := S754_zero false; counts := 0 |}
  else {| sumScores := sum_scores l w; counts := occurrences l w |}.
Proof.
  intros Htr. unfold track_at. rewrite (Htr l). by case_decide.
Qed.

Lemma track_step_tracked w tr hi c :
  tracked w tr → tracked (w ++ [c]) (track_step (tr, hi) c).1.
Proof.
  intros Htr.
  assert (∀ (tr' : gmap Z attr) a b, (if a <? b then (tr', {| label := label_ c; count := b |})
                      else (tr', hi)).1 = tr') as Hfst
    by (intros; by destruct (_ <? _)).
  unfold track_step. rewrite Hfst. clear Hfst.
  intros l. rewrite (Htr (label_ c)).
  pose proof (occurrences_nonneg (label_ c) w) as Hpos.
  destruct (decide (label_ c = l)) as [<-|Hne].
  - rewrite occurrences_snoc.
    destruct (decide (label_ c = label_ c)) as [_|]; [|done].
    destruct (decide (occurrences (label_ c) w + 1 = 0)) as [|_]; [lia|].
    destruct (decide (occurrences (label_ c) w = 0)) as [H0|H0].
    + rewrite lookup_insert_eq, sum_scores_snoc_first, H0; done.
    + rewrite lookup_insert_eq, sum_scores_snoc_next; done.
  - rewrite occurrences_snoc.
    destruct (decide (label_ c = l)) as [|_]; [done|].
    rewrite Z.add_0_r, sum_scores_snoc_ne by done.
    destruct (decide (occurrences (label_ c) w = 0));
      rewrite lookup_insert_ne by done; apply Htr.
Qed.

Lemma track_step_highest w tr hi c :
  tracked w tr →
  (track_step (tr, hi) c).2 =
  if count hi <? occurrences (label_ c) (w ++ [c])
  then {| label := label_ c; count := occurrences (label_ c) (w ++ [c]) |}
  else hi.
Proof.
  intros Htr.
  pose proof (track_step_tracked w tr hi c Htr) as Htr'.
  pose proof (track_at_tracked _ _ (label_ c) Htr') as Hat.
  destruct (decide (occurrences (label_ c) (w ++ [c]) = 0)) as [H0|_].
  { rewrite occurrences_snoc in H0.
    destruct (decide (label_ c = label_ c)); [|done].
    pose proof (occurrences_nonneg (label_ c) w). lia. }
  revert Hat. unfold track_step.
  set (tr' := match tr !! label_ c with
              | Some a => _
              | None => _ end).
  destruct (count hi <? counts (track_at tr' (label_ c))) eqn:E;
    simpl; intros Hat; rewrite Hat in E; simpl in E; rewrite E; [|done].
  by rewrite Hat.
Qed.

Lemma highest_of_step w hi c :
  highest_of w hi →
  highest_of (w ++ [c])
    (if count hi <? occurrences (label_ c) (w ++ [c])
     then {| label := label_ c; count := occurrences (label_ c) (w ++ [c]) |}
     else hi).
Proof.
  intros (Hmax & Hnil & Hfirst).
  assert (∀ l, l ≠ label_ c → occurrences l (w ++ [c]) = occurrences l w) as Hother.
  { intros l Hl. rewrite occurrences_snoc.
    destruct (decide (label_ c = l)); [done|lia]. }
  destruct (Z.ltb_spec (count hi) (occurrences (label_ c) (w ++ [c]))) as [Hlt|Hge].
  - split; [|split]; simpl.
    + intros l. destruct (decide (l = label_ c)) as [->|Hl]; [lia|].
      rewrite Hother by done. specialize (Hmax l). lia.
    + intros Habs. by destruct w.
    + intros _. exists w, c, []. repeat split; try done.
      intros l'. specialize (Hmax l'). lia.
  - assert (w ≠ []) as Hw.
    { intros ->. rewrite Hnil in Hge by done.
      rewrite occurrences_snoc, occurrences_nil in Hge.
      destruct (decide (label_ c = label_ c)); [simpl in Hge; lia|done]. }
    split; [|split].
    + intros l. destruct (decide (l = label_ c)) as [->|Hl]; [lia|].
      rewrite Hother by done. apply Hmax.
    + intros Habs. by destruct w.
    + intros _. destruct (Hfirst Hw) as (p & x & s & -> & Hx & Hn & Hbefore).
      exists p, x, (s ++ [c]). repeat split; try done.
      by rewrite <- app_assoc.
Qed.

(** The loop invariant, at the end of the loop. *)
Lemma track_loop_spec w :
  tracked w (track_loop w).1 ∧ highest_of w (track_loop w).2.
Proof.
  induction w as [|c w [IHt IHh]] using rev_ind.
  - split.
    + intros l. simpl. by rewrite lookup_empty.
    + by repeat split.
  - rewrite track_loop_snoc. destruct (track_loop w) as [tr hi].
    cbn [fst snd] in IHt, IHh. split.
    + by apply track_step_tracked.
    + rewrite (track_step_highest w) by done. by apply highest_of_step.
Qed.

(** The counts stay within [int32] as long as the window does. *)
Lemma track_loop_counts_bounded w l :
  Z.of_nat (length w) ≤ INT32_MAX →
  0 ≤ counts (track_at (track_loop w).1 l) ≤ INT32_MAX ∧
  0 ≤ count (track_loop w).2 ≤ INT32_MAX.
Proof.
  intros Hlen. destruct (track_loop_spec w) as [Ht (Hmax & Hnil & Hfirst)].
  rewrite (track_at_tracked w) by done.
  pose proof (occurrences_le_length l w).
  pose proof (occurrences_nonneg l w).
  split.
  - case_decide; simpl; [done|lia].
  - destruct w as [|c w].
    + rewrite Hnil by done. simpl. done.
    + pose proof (first_to_reach_count _ _ _ (Hfirst ltac:(done)) Hmax) as Hc.
      pose proof (occurrences_le_length (label (track_loop (c :: w)).2) (c :: w)).
      pose proof (occurrences_nonneg (label (track_loop (c :: w)).2) (c :: w)).
      lia.
Qed.

(** What [aggregate] returns on a window that is not empty. *)
Lemma aggregate_spec w :
  w ≠ [] →
  first_to_reach w (label_ (aggregate w)) (occurrences (label_ (aggregate w)) w) ∧
  (∀ l, occurrences l w ≤ occurrences (label_ (aggregate w)) w) ∧
  score_ (aggregate w) =
    F32.div (sum_scores (label_ (aggregate w)) w)
            (F32.of_int (occurrences (label_ (aggregate w)) w)).
Proof.
  intros Hw. destruct (track_loop_spec w) as [Ht (Hmax & _ & Hfirst)].
  specialize (Hfirst Hw).
  pose proof (first_to_reach_count _ _ _ Hfirst Hmax) as Hc.
  pose proof (track_at_tracked w _ (label (track_loop w).2) Ht) as Hat.
  unfold aggregate. destruct (track_loop w) as [tr hi].
  cbn [fst snd label_ score_] in *.
  rewrite Hc. split; [done|]. split; [done|].
  rewrite Hat. destruct (decide (occurrences (label hi) w = 0)) as [H0|_].
  - destruct Hfirst as (p & x & s & -> & Hx & Hn & Hbefore).
    pose proof (occurrences_nonneg 0 p). specialize (Hbefore 0). lia.
  - done.
Qed.

(** ** [Process] and [mostFrequent] *)

Lemma size_t_of_int_small z : 0 ≤ z → int32_range z → size_t_of_int z = z.
Proof.
  unfold int32_range, INT32_MAX, size_t_of_int. intros ? [_ ?].
  apply Z.mod_small. lia.
Qed.

Lemma time_out_elapsed_emplace_back o st c t :
  time_out_elapsed o (emplace_back st c) t = time_out_elapsed o st t.
Proof. reflexivity. Qed.

Lemma check_time_out_queue o st c t :
  inferenceQueue (check_time_out o (emplace_back st c) t) =
  if time_out_elapsed o st t then [] else inferenceQueue st ++ [c].
Proof. reflexivity. Qed.

Lemma check_time_out_length o st c t :
  (length (inferenceQueue (check_time_out o (emplace_back st c) t))
   ≤ S (length (inferenceQueue st)))%nat.
Proof.
  rewrite check_time_out_queue. destruct (time_out_elapsed o st t); simpl.
  - lia.
  - rewrite length_app. simpl. lia.
Qed.

(** A call on which the vote runs: the oldest entry goes, the vote is over
    what remains, and something does remain. *)
Lemma Process_aggregates o st c t :
  int32_range (queue_size o) →
  aggregation_runs o st c t = true →
  ∃ oldest w,
    inferenceQueue (check_time_out o (emplace_back st c) t) = oldest :: w ∧
    w ≠ [] ∧
    queue_size o ≤ Z.of_nat (length w) + 1 ∧
    Process o st c t =
      Some ({| inferenceQueue := w; startingGestureTime := t |}, aggregate w).
Proof.
  intros Hrange Hrun. unfold aggregation_runs in Hrun.
  apply andb_true_iff in Hrun as [Hgt Hfull].
  apply Z.ltb_lt in Hgt. rewrite size_t_of_int_small in Hfull by (done || lia).
  apply Z.leb_le in Hfull.
  unfold Process, mostFrequent, vote.
  rewrite (proj2 (Z.ltb_lt _ _) Hgt).
  rewrite size_t_of_int_small by (done || lia).
  rewrite (proj2 (Z.leb_le _ _) Hfull).
  destruct (inferenceQueue (check_time_out o (emplace_back st c) t))
    as [|oldest [|c' w]] eqn:Eq; simpl in Hfull; try lia.
  exists oldest, (c' :: w). repeat split; try done.
  simpl length. lia.
Qed.

(** A call of [mostFrequent] on which the vote does not run. *)
Lemma Process_passes o st c t :
  int32_range (queue_size o) →
  1 < queue_size o →
  aggregation_runs o st c t = false →
  Process o st c t = Some (check_time_out o (emplace_back st c) t, c).
Proof.
  intros Hrange Hgt Hrun. unfold aggregation_runs in Hrun.
  unfold Process, mostFrequent, vote.
  rewrite (proj2 (Z.ltb_lt _ _) Hgt) in *. cbn [andb] in Hrun. by rewrite Hrun.
Qed.

(** Within the range of [queue_size], [Process] never erases from an empty
    queue: every call returns. *)
Lemma Process_total o st c t :
  int32_range (queue_size o) → ∃ st' out, Process o st c t = Some (st', out).
Proof.
  intros Hrange. destruct (aggregation_runs o st c t) eqn:Hrun.
  - destruct (Process_aggregates _ _ _ _ Hrange Hrun) as (? & w & _ & _ & _ & ->).
    eauto.
  - destruct (Z.ltb_spec 1 (queue_size o)) as [Hgt|Hle].
    + rewrite Process_passes by done. eauto.
    + unfold Process. rewrite (proj2 (Z.ltb_ge _ _) Hle). eauto.
Qed.

(** The output of a call on which the vote runs is the vote over the queue
    the call leaves behind. *)
Lemma Process_out_aggregate o st c t st' out :
  aggregation_runs o st c t = true →
  Process o st c t = Some (st', out) →
  out = aggregate (inferenceQueue st').
Proof.
  unfold aggregation_runs, Process, mostFrequent, vote.
  intros [-> ->]%andb_true_iff.
  destruct (inferenceQueue (check_time_out o (emplace_back st c) t)); [done|].
  by intros [= <- <-].
Qed.

(** A disabled stabilizer never leaves its initial state. *)
Lemma reachable_disabled o st :
  queue_size o ≤ 1 → reachable o st → st = new_calculator.
Proof.
  intros Hle. induction 1 as [|st c t st' out _ -> HP]; [done|].
  unfold Process in HP. rewrite (proj2 (Z.ltb_ge _ _) Hle) in HP.
  by injection HP as <- _.
Qed.

(** An enabled stabilizer keeps its queue strictly below [queue_size]
    between calls. *)
Lemma reachable_length o st :
  int32_range (queue_size o) → 1 < queue_size o → reachable o st →
  Z.of_nat (length (inferenceQueue st)) ≤ queue_size o - 1.
Proof.
  intros Hrange Hgt. induction 1 as [|st c t st' out _ IH HP].
  - simpl. lia.
  - pose proof (check_time_out_length o st c t) as Hlen.
    destruct (aggregation_runs o st c t) eqn:Hrun.
    + destruct (Process_aggregates _ _ _ _ Hrange Hrun) as (? & w & Eq & _ & _ & HP').
      rewrite HP' in HP. injection HP as <- _. simpl.
      rewrite Eq in Hlen. simpl in Hlen. lia.
    + rewrite Process_passes in HP by done. injection HP as <- _.
      unfold aggregation_runs in Hrun.
      rewrite (proj2 (Z.ltb_lt _ _) Hgt) in Hrun. cbn [andb] in Hrun.
      rewrite size_t_of_int_small in Hrun by (done || lia).
      apply Z.leb_gt in Hrun. lia.
Qed.

(** As long as the queue cannot reach [queue_size], a stream of packets
    goes through unchanged. *)
Lemma run_below_capacity o st packets :
  int32_range (queue_size o) → 1 < queue_size o →
  Z.of_nat (length (inferenceQueue st)) + Z.of_nat (length packets) < queue_size o →
  ∃ st', run o st packets = Some (st', packets.*1) ∧
         (length (inferenceQueue st') ≤ length (inferenceQueue st) + length packets)%nat.
Proof.
  intros Hrange Hgt. revert st.
  induction packets as [|[c t] packets IH]; intros st Hlen; simpl in *.
  - exists st. split; [done|lia].
  - pose proof (check_time_out_length o st c t) as Hq.
    assert (aggregation_runs o st c t = false) as Hrun.
    { unfold aggregation_runs. rewrite (proj2 (Z.ltb_lt _ _) Hgt). cbn [andb].
      rewrite size_t_of_int_small by (done || lia). apply Z.leb_gt. lia. }
    rewrite Process_passes by done. simpl.
    destruct (IH (check_time_out o (emplace_back st c) t)) as (st' & -> & Hst');
      [lia|].
    exists st'. split; [done|lia].
Qed.

Lemma to_bool_not_zero a : F64.to_bool a = true ↔ ¬ is_zero a.
Proof.
  unfold is_zero. destruct a; simpl; split; try done.
  - intros H. destruct H. eauto.
  - intros _ [s' [=]].
  - intros _ [s' [=]].
  - intros _ [s' [=]].
Qed.

Lemma time_out_elapsed_iff o st t :
  time_out_elapsed o st t = true ↔
  has_queue_time_out_s o = true ∧
  ¬ is_zero (startingGestureTime st) ∧
  F64.geb (F64.sub t (startingGestureTime st)) (queue_time_out_s o) = true.
Proof.
  unfold time_out_elapsed. rewrite <- to_bool_not_zero.
  destruct (has_queue_time_out_s o), (F64.to_bool (startingGestureTime st));
    simpl; (split; [intros ?; by repeat split | by intros (? & ? & ?)]).
Qed.

Lemma check_time_out_cleared o st c t :
  inferenceQueue (check_time_out o (emplace_back st c) t) = [] ↔
  time_out_elapsed o st t = true.
Proof.
  rewrite check_time_out_queue. destruct (time_out_elapsed o st t); [done|].
  split; [|done]. by destruct (inferenceQueue st).
Qed.

(** * The claims *)

(** C1, as amended: with [queue_size = 3] and no time-out, the four
    observations (1, 0.5), (1, 0.7), (2, 0.9), (1, 0.6) at time stamps 0, 1,
    2, 3 produce the outputs (1, 0.5), (1, 0.7), (1, 0.7), (2, 0.9).  The
    oldest entry leaves the queue before the vote, so the third call votes
    over [(1, 0.7); (2, 0.9)] and the fourth over [(2, 0.9); (1, 0.6)];
    both are ties, which the entry met first wins. *)
Theorem C1_example_outputs :
  snd <$> run example_options new_calculator example_packets =
  Some [ {| score_ := F32.of_ratio 5 10; label_ := 1 |};
         {| score_ := F32.of_ratio 7 10; label_ := 1 |};
         {| score_ := F32.of_ratio 7 10; label_ := 1 |};
         {| score_ := F32.of_ratio 9 10; label_ := 2 |} ].
Proof. by vm_compute. Qed.

(** C1, as stated, fails: the outputs of the worked example are not
    (1, 0.5), (1, 0.7), (1, 0.6), (1, 0.65). *)
Lemma C1_announced_outputs_refuted :
  snd <$> run example_options new_calculator example_packets ≠
  Some example_announced.
Proof. vm_compute. intros [=]. Qed.

(** C2, as amended: on a call on which the time-out fires (a time-out is
    configured, the time stamp recorded by the previous call is not zero,
    and the gap to it is at least [queue_time_out_s]), the queue is cleared
    after the current observation has been appended: the queue is empty
    right after the check, the call leaves it empty, and the call returns
    its input. *)
Theorem C2_time_out_discards_appended o st c t :
  int32_range (queue_size o) →
  reachable o st →
  has_queue_time_out_s o = true →
  ¬ is_zero (startingGestureTime st) →
  F64.geb (F64.sub t (startingGestureTime st)) (queue_time_out_s o) = true →
  c ∈ inferenceQueue (emplace_back st c) ∧
  inferenceQueue (check_time_out o (emplace_back st c) t) = [] ∧
  Process o st c t =
    Some ({| inferenceQueue := []; startingGestureTime := t |}, c).
Proof.
  intros Hrange Hreach Hhas Hset Hgap.
  assert (time_out_elapsed o st t = true) as Hfire
    by (by apply time_out_elapsed_iff).
  assert (1 < queue_size o) as Hgt.
  { destruct (Z.ltb_spec 1 (queue_size o)) as [|Hle]; [done|].
    rewrite (reachable_disabled o st Hle Hreach) in Hset.
    destruct Hset. by exists false. }
  split; [|split].
  - simpl. apply elem_of_app. right. by apply list_elem_of_singleton.
  - by apply check_time_out_cleared.
  - rewrite Process_passes; try done.
    + unfold check_time_out. by rewrite time_out_elapsed_emplace_back, Hfire.
    + unfold aggregation_runs.
      rewrite (proj2 (check_time_out_cleared o st c t) Hfire).
      rewrite size_t_of_int_small by (done || lia).
      rewrite (proj2 (Z.ltb_lt _ _) Hgt). cbn [andb length].
      apply Z.leb_gt. lia.
Qed.

Lemma C2_witness :
  Process demo_options demo_state {| score_ := F32.of_ratio 7 10; label_ := 1 |}
          (F64.of_int 5) =
  Some ({| inferenceQueue := []; startingGestureTime := F64.of_int 5 |},
        {| score_ := F32.of_ratio 7 10; label_ := 1 |}).
Proof.
  apply (C2_time_out_discards_appended demo_options demo_state).
  - by vm_compute.
  - apply (reachable_Process demo_options new_calculator
             {| score_ := F32.of_ratio 5 10; label_ := 1 |} (F64.of_int 1)
             demo_state {| score_ := F32.of_ratio 5 10; label_ := 1 |}).
    + apply reachable_new.
    + reflexivity.
  - reflexivity.
  - intros [s Hs]. discriminate Hs.
  - reflexivity.
Defined.

(** C2, as stated, fails when the time stamp recorded by the previous
    call is zero: after packets stamped -2, -1 and 0, a packet stamped 100
    meets a configured time-out of 10 seconds and a gap of 100 seconds,
    yet the queue is not cleared, the appended observation stays, and the
    call returns the vote over entries from before the gap, (2, 0.9),
    instead of its input (1, 0.6). *)
Lemma C2_zero_time_stamp_refuted :
  (∃ outs, run gap_options new_calculator gap_packets = Some (gap_state, outs)) ∧
  has_queue_time_out_s gap_options = true ∧
  F64.geb (F64.sub (F64.of_int 100) (startingGestureTime gap_state))
          (queue_time_out_s gap_options) = true ∧
  inferenceQueue (check_time_out gap_options
    (emplace_back gap_state {| score_ := F32.of_ratio 6 10; label_ := 1 |})
    (F64.of_int 100)) ≠ [] ∧
  Process gap_options gap_state
    {| score_ := F32.of_ratio 6 10; label_ := 1 |} (F64.of_int 100) =
    Some ({| inferenceQueue :=
               [ {| score_ := F32.of_ratio 9 10; label_ := 2 |};
                 {| score_ := F32.of_ratio 6 10; label_ := 1 |} ];
             startingGestureTime := F64.of_int 100 |},
          {| score_ := F32.of_ratio 9 10; label_ := 2 |}) ∧
  {| score_ := F32.of_ratio 9 10; label_ := 2 |} ≠
    {| score_ := F32.of_ratio 6 10; label_ := 1 |}.
Proof.
  split; [eexists; by vm_compute|].
  split; [reflexivity|]. split; [by vm_compute|].
  split; [by vm_compute|]. split; [by vm_compute|]. by vm_compute.
Qed.

(** C3: with [queue_size > 1], a call clears the queue exactly when a
    time-out is configured, the recorded time stamp is not zero, and the
    current time stamp minus the recorded one is at least
    [queue_time_out_s]; this holds right after the check and for the queue
    the call leaves behind.  For every configuration, the first call on a
    new calculator triggers no reset: the appended observation is still
    the whole queue after the check. *)
Theorem C3_time_out_condition o st c t :
  1 < queue_size o →
  int32_range (queue_size o) →
  (inferenceQueue (check_time_out o (emplace_back st c) t) = [] ↔
     has_queue_time_out_s o = true ∧
     ¬ is_zero (startingGestureTime st) ∧
     F64.geb (F64.sub t (startingGestureTime st)) (queue_time_out_s o) = true) ∧
  (∃ st' out,
     Process o st c t = Some (st', out) ∧
     (inferenceQueue st' = [] ↔
        has_queue_time_out_s o = true ∧
        ¬ is_zero (startingGestureTime st) ∧
        F64.geb (F64.sub t (startingGestureTime st)) (queue_time_out_s o) = true)) ∧
  (∀ o' c' t',
     time_out_elapsed o' new_calculator t' = false ∧
     inferenceQueue (check_time_out o' (emplace_back new_calculator c') t') = [c']).
Proof.
  intros Hgt Hrange. split; [|split].
  - rewrite check_time_out_cleared. apply time_out_elapsed_iff.
  - destruct (aggregation_runs o st c t) eqn:Hrun.
    + destruct (Process_aggregates _ _ _ _ Hrange Hrun)
        as (oldest & w & Eq & Hw & _ & ->).
      eexists _, _. split; [done|].
      rewrite <- time_out_elapsed_iff. simpl. split; [done|].
      intros Hfire. apply (check_time_out_cleared o st c t) in Hfire.
      by rewrite Hfire in Eq.
    + rewrite Process_passes by done. eexists _, _. split; [done|].
      rewrite <- time_out_elapsed_iff. apply check_time_out_cleared.
  - intros o' c' t'.
    assert (time_out_elapsed o' new_calculator t' = false) as Hno.
    { unfold time_out_elapsed. simpl. by rewrite andb_false_r. }
    split; [done|]. by rewrite check_time_out_queue, Hno.
Qed.

Lemma C3_witness :
  inferenceQueue (check_time_out demo_options
    (emplace_back demo_state {| score_ := F32.of_ratio 7 10; label_ := 1 |})
    (F64.of_int 5)) = [] ↔
  has_queue_time_out_s demo_options = true ∧
  ¬ is_zero (startingGestureTime demo_state) ∧
  F64.geb (F64.sub (F64.of_int 5) (startingGestureTime demo_state))
          (queue_time_out_s demo_options) = true.
Proof.
  apply (C3_time_out_condition demo_options demo_state
           {| score_ := F32.of_ratio 7 10; label_ := 1 |} (F64.of_int 5)).
  - reflexivity.
  - by vm_compute.
Defined.

(** C4: on a call on which the vote runs, if one label has strictly more
    entries than every other label in the queue voted over (the queue the
    call leaves behind), that label is the label returned. *)
Theorem C4_majority o st c t m :
  int32_range (queue_size o) →
  aggregation_runs o st c t = true →
  ∃ st' out,
    Process o st c t = Some (st', out) ∧
    out = aggregate (inferenceQueue st') ∧
    ((∀ l, l ≠ m →
        occurrences l (inferenceQueue st') < occurrences m (inferenceQueue st')) →
     label_ out = m).
Proof.
  intros Hrange Hrun.
  destruct (Process_aggregates _ _ _ _ Hrange Hrun) as (oldest & w & _ & Hw & _ & ->).
  eexists _, _. split; [done|]. simpl. split; [done|].
  intros Hmajor. destruct (aggregate_spec w Hw) as (_ & Hmax & _).
  destruct (decide (label_ (aggregate w) = m)) as [|Hne]; [done|].
  specialize (Hmajor _ Hne). specialize (Hmax m). lia.
Qed.

Lemma C4_witness :
  ∃ st' out,
    Process full_options full_state {| score_ := F32.of_ratio 6 10; label_ := 1 |}
            (F64.of_int 3) = Some (st', out) ∧
    label_ out = 1.
Proof.
  destruct (C4_majority full_options full_state
              {| score_ := F32.of_ratio 6 10; label_ := 1 |} (F64.of_int 3) 1)
    as (st' & out & HP & _ & Hmajor).
  - by vm_compute.
  - reflexivity.
  - exists st', out. split; [exact HP|]. apply Hmajor.
    injection HP as <- _. intros l Hl. unfold occurrences. simpl.
    rewrite !filter_cons, filter_nil. simpl.
    destruct (decide (1 = l)) as [|_]; [done|].
    destruct (decide (2 = l)); simpl; lia.
Defined.

(** C5: in every vote over a window that is not empty, the winner is the
    label whose count is the first to reach the greatest count of the
    window while the window is gone through from the front, so among labels
    that end with equal counts a label that holds the record is not
    displaced; and two calls that vote over the same window return the
    same result. *)
Theorem C5_tie_break w :
  w ≠ [] →
  first_to_reach w (label_ (aggregate w)) (occurrences (label_ (aggregate w)) w) ∧
  (∀ l, occurrences l w ≤ occurrences (label_ (aggregate w)) w) ∧
  (∀ o1 st1 c1 t1 st1' out1 o2 st2 c2 t2 st2' out2,
     aggregation_runs o1 st1 c1 t1 = true →
     aggregation_runs o2 st2 c2 t2 = true →
     Process o1 st1 c1 t1 = Some (st1', out1) →
     Process o2 st2 c2 t2 = Some (st2', out2) →
     inferenceQueue st1' = w → inferenceQueue st2' = w →
     out1 = out2).
Proof.
  intros Hw. destruct (aggregate_spec w Hw) as (Hfirst & Hmax & _).
  split; [done|]. split; [done|].
  intros o1 st1 c1 t1 st1' out1 o2 st2 c2 t2 st2' out2 Hr1 Hr2 HP1 HP2 Hw1 Hw2.
  rewrite (Process_out_aggregate _ _ _ _ _ _ Hr1 HP1).
  rewrite (Process_out_aggregate _ _ _ _ _ _ Hr2 HP2).
  by rewrite Hw1, Hw2.
Qed.

Lemma C5_witness :
  label_ (aggregate tie_window) = 2 ∧
  first_to_reach tie_window 2 1 ∧
  occurrences 1 tie_window = occurrences 2 tie_window.
Proof.
  assert (label_ (aggregate tie_window) = 2) as Hl by (by vm_compute).
  assert (occurrences 2 tie_window = 1) as Hn by reflexivity.
  destruct (C5_tie_break tie_window) as (Hfirst & _ & _).
  - discriminate.
  - rewrite Hl, Hn in Hfirst. split; [exact Hl|]. split; [exact Hfirst|].
    reflexivity.
Defined.

(** C6: on a call on which the vote runs, the returned score is the
    [float] sum of the scores of the entries of the winning label in the
    queue voted over, added in arrival order, divided by the number of
    these entries: the mean of the winning label's scores in that window. *)
Theorem C6_mean_score o st c t :
  int32_range (queue_size o) →
  aggregation_runs o st c t = true →
  ∃ st' out,
    Process o st c t = Some (st', out) ∧
    score_ out =
      F32.div (sum_scores (label_ out) (inferenceQueue st'))
              (F32.of_int (occurrences (label_ out) (inferenceQueue st'))).
Proof.
  intros Hrange Hrun.
  destruct (Process_aggregates _ _ _ _ Hrange Hrun) as (oldest & w & _ & Hw & _ & ->).
  eexists _, _. split; [done|]. simpl.
  by destruct (aggregate_spec w Hw) as (_ & _ & ->).
Qed.

Lemma C6_witness :
  ∃ st' out,
    Process full_options full_state {| score_ := F32.of_ratio 6 10; label_ := 1 |}
            (F64.of_int 3) = Some (st', out) ∧
    score_ out =
      F32.div (F32.add (F32.of_ratio 7 10) (F32.of_ratio 6 10)) (F32.of_int 2).
Proof.
  destruct (C6_mean_score full_options full_state
              {| score_ := F32.of_ratio 6 10; label_ := 1 |} (F64.of_int 3))
    as (st' & out & HP & Hscore).
  - by vm_compute.
  - reflexivity.
  - exists st', out. split; [exact HP|]. rewrite Hscore.
    injection HP as <- <-. by vm_compute.
Defined.

(** C7: with [queue_size ≥ 2], a sequence of fewer than [queue_size]
    observations fed to a new calculator comes out unchanged, and on none
    of its calls does the vote run. *)
Theorem C7_below_capacity o packets :
  int32_range (queue_size o) →
  2 ≤ queue_size o →
  Z.of_nat (length packets) < queue_size o →
  (∃ st, run o new_calculator packets = Some (st, packets.*1)) ∧
  (∀ pre c t post,
     packets = pre ++ (c, t) :: post →
     ∃ st st',
       run o new_calculator pre = Some (st, pre.*1) ∧
       aggregation_runs o st c t = false ∧
       Process o st c t = Some (st', c)).
Proof.
  intros Hrange Hge Hlen. split.
  - destruct (run_below_capacity o new_calculator packets) as (st & Hrun & _);
      [done|lia|simpl; lia|]. by exists st.
  - intros pre c t post ->. rewrite length_app in Hlen. simpl in Hlen.
    destruct (run_below_capacity o new_calculator pre) as (st & Hrun & Hst);
      [done|lia|simpl; lia|]. simpl in Hst.
    pose proof (check_time_out_length o st c t) as Hq.
    assert (aggregation_runs o st c t = false) as Hno.
    { unfold aggregation_runs. rewrite size_t_of_int_small by (done || lia).
      apply andb_false_iff. right. apply Z.leb_gt. lia. }
    exists st, (check_time_out o (emplace_back st c) t).
    split; [done|]. split; [done|]. apply Process_passes; (done || lia).
Qed.

Lemma C7_witness :
  ∃ st, run example_options new_calculator (take 2 example_packets) =
        Some (st, (take 2 example_packets).*1).
Proof.
  apply (C7_below_capacity example_options (take 2 example_packets)).
  - by vm_compute.
  - by vm_compute.
  - reflexivity.
Defined.

(** C8: under a configuration with [queue_size ≤ 1], a call returns its
    input observation and leaves the calculator, queue and recorded time
    stamp, as it found it. *)
Theorem C8_disabled o st c t :
  queue_size o ≤ 1 → Process o st c t = Some (st, c).
Proof.
  intros Hle. unfold Process. by rewrite (proj2 (Z.ltb_ge _ _) Hle).
Qed.

Lemma C8_witness :
  Process single_options demo_state {| score_ := F32.of_ratio 7 10; label_ := 2 |}
          (F64.of_int 9) =
  Some (demo_state, {| score_ := F32.of_ratio 7 10; label_ := 2 |}).
Proof.
  apply (C8_disabled single_options). by vm_compute.
Defined.

Lemma demo_state_reachable : reachable demo_options demo_state.
Proof.
  apply (reachable_Process demo_options new_calculator
           {| score_ := F32.of_ratio 5 10; label_ := 1 |} (F64.of_int 1)
           demo_state {| score_ := F32.of_ratio 5 10; label_ := 1 |}).
  - apply reachable_new.
  - reflexivity.
Defined.

Lemma full_state_reachable : reachable full_options full_state.
Proof.
  set (c1 := {| score_ := F32.of_ratio 5 10; label_ := 1 |}).
  set (c2 := {| score_ := F32.of_ratio 7 10; label_ := 1 |}).
  set (c3 := {| score_ := F32.of_ratio 9 10; label_ := 2 |}).
  set (st1 := {| inferenceQueue := [c1]; startingGestureTime := F64.of_int 0 |}).
  set (st2 := {| inferenceQueue := [c1; c2]; startingGestureTime := F64.of_int 1 |}).
  apply (reachable_Process full_options st2 c3 (F64.of_int 2) full_state c3);
    [|reflexivity].
  apply (reachable_Process full_options st1 c2 (F64.of_int 1) st2 c2);
    [|reflexivity].
  apply (reachable_Process full_options new_calculator c1 (F64.of_int 0) st1 c1);
    [|reflexivity].
  apply reachable_new.
Defined.

(** C9: for every configuration and every state reached by a sequence of
    calls, the next call returns, and the queue it leaves holds at most
    [queue_size] entries.  The configurations are those whose [queue_size]
    is not negative: the ones the stabilizer admits have [queue_size ≥ 1],
    and 0 is what an option left unset reads as. *)
Theorem C9_window_bounded o st :
  int32_range (queue_size o) →
  0 ≤ queue_size o →
  reachable o st →
  Z.of_nat (length (inferenceQueue st)) ≤ queue_size o ∧
  ∀ c t, ∃ st' out,
    Process o st c t = Some (st', out) ∧
    Z.of_nat (length (inferenceQueue st')) ≤ queue_size o.
Proof.
  intros Hrange Hpos Hreach.
  assert (∀ st, reachable o st →
            Z.of_nat (length (inferenceQueue st)) ≤ queue_size o) as Hbound.
  { intros st0 Hst0. destruct (Z.ltb_spec 1 (queue_size o)) as [Hgt|Hle].
    - pose proof (reachable_length o st0 Hrange Hgt Hst0). lia.
    - rewrite (reachable_disabled o st0 Hle Hst0). simpl. lia. }
  split; [by apply Hbound|].
  intros c t. destruct (Process_total o st c t Hrange) as (st' & out & HP).
  exists st', out. split; [done|].
  apply Hbound. by eapply reachable_Process.
Qed.

Lemma C9_witness :
  Z.of_nat (length (inferenceQueue full_state)) ≤ queue_size full_options ∧
  ∃ st' out,
    Process full_options full_state
      {| score_ := F32.of_ratio 6 10; label_ := 1 |} (F64.of_int 3) =
      Some (st', out) ∧
    Z.of_nat (length (inferenceQueue st')) ≤ queue_size full_options.
Proof.
  destruct (C9_window_bounded full_options full_state) as [Hnow Hnext].
  - by vm_compute.
  - by vm_compute.
  - apply full_state_reachable.
  - split; [exact Hnow|].
    apply (Hnext {| score_ := F32.of_ratio 6 10; label_ := 1 |} (F64.of_int 3)).
Defined.

(** C10: with [queue_size ≥ 2], every state reached by a sequence of calls
    holds at most [queue_size - 1] entries; the next call returns, and if
    the vote runs on it, the queue had [queue_size - 1] entries before the
    call, the append brought it to [queue_size], the oldest entry was
    erased, and the vote is over the [queue_size - 1] entries that remain,
    the newest ones. *)
Theorem C10_vote_window o st :
  int32_range (queue_size o) →
  2 ≤ queue_size o →
  reachable o st →
  Z.of_nat (length (inferenceQueue st)) ≤ queue_size o - 1 ∧
  ∀ c t, ∃ st' out,
    Process o st c t = Some (st', out) ∧
    Z.of_nat (length (inferenceQueue st')) ≤ queue_size o - 1 ∧
    (aggregation_runs o st c t = true →
     ∃ oldest,
       inferenceQueue st ++ [c] = oldest :: inferenceQueue st' ∧
       Z.of_nat (length (inferenceQueue st ++ [c])) = queue_size o ∧
       Z.of_nat (length (inferenceQueue st')) = queue_size o - 1 ∧
       out = aggregate (inferenceQueue st')).
Proof.
  intros Hrange Hge Hreach.
  pose proof (reachable_length o st Hrange ltac:(lia) Hreach) as Hlen.
  split; [done|]. intros c t.
  destruct (Process_total o st c t Hrange) as (st' & out & HP).
  exists st', out. split; [done|].
  split; [apply reachable_length; [done|lia|by eapply reachable_Process]|].
  intros Hrun.
  destruct (Process_aggregates _ _ _ _ Hrange Hrun) as (oldest & w & Eq & _ & Hfull & HP').
  rewrite HP' in HP. injection HP as <- <-. simpl.
  rewrite check_time_out_queue in Eq.
  destruct (time_out_elapsed o st t); [done|].
  exists oldest. rewrite Eq. split; [done|].
  assert (Z.of_nat (length (oldest :: w)) ≤ queue_size o) as Hcap.
  { rewrite <- Eq, length_app. simpl. lia. }
  simpl length in *. repeat split; lia.
Qed.

Lemma C10_witness :
  Z.of_nat (length (inferenceQueue demo_state)) ≤ queue_size demo_options - 1.
Proof.
  apply (C10_vote_window demo_options demo_state).
  - by vm_compute.
  - by vm_compute.
  - apply demo_state_reachable.
Defined.

(** * Further properties of the stabilizer *)

Lemma size_t_of_int_zero z : int32_range z → size_t_of_int z = 0 ↔ z = 0.
Proof.
  unfold int32_range, INT32_MIN, INT32_MAX, size_t_of_int. intros Hz. split.
  - intros Hmod. destruct (Z.neg_nonneg_cases z) as [Hneg|Hpos].
    + assert (z = (-1) * 2 ^ 64 + (z + 2 ^ 64)) as Hsplit by lia.
      rewrite Hsplit, Z.add_comm, Z.mod_add, Z.mod_small in Hmod; lia.
    + rewrite Z.mod_small in Hmod; lia.
  - by intros ->.
Qed.

Lemma check_time_out_time o st t :
  startingGestureTime (check_time_out o st t) = t.
Proof. reflexivity. Qed.

(** Every call of an enabled stabilizer records its time stamp. *)
Lemma Process_records_time o st c t st' out :
  1 < queue_size o →
  Process o st c t = Some (st', out) → startingGestureTime st' = t.
Proof.
  intros Hgt. unfold Process, mostFrequent, vote.
  rewrite (proj2 (Z.ltb_lt _ _) Hgt).
  destruct (_ <=? _).
  - destruct (inferenceQueue _); [done|]. by intros [= <- _].
  - by intros [= <- _].
Qed.

(** X1: within the range of [queue_size], a call returns, and the label it
    returns is the label of an entry of the queue it was given or of the
    current observation: the stabilizer never makes a label up. *)
Theorem X1_label_from_queue o st c t :
  int32_range (queue_size o) →
  ∃ st' out,
    Process o st c t = Some (st', out) ∧
    ∃ x, x ∈ inferenceQueue st ++ [c] ∧ label_ out = label_ x.
Proof.
  intros Hrange. destruct (aggregation_runs o st c t) eqn:Hrun.
  - destruct (Process_aggregates _ _ _ _ Hrange Hrun)
      as (oldest & w & Eq & Hw & _ & ->).
    eexists _, _. split; [done|].
    destruct (aggregate_spec w Hw) as ((p & x & s & Ew & Hx & _) & _).
    exists x. split; [|done].
    rewrite check_time_out_queue in Eq.
    destruct (time_out_elapsed o st t); [done|].
    rewrite Eq, Ew. apply elem_of_cons. right.
    apply elem_of_app. right. apply elem_of_cons. by left.
  - assert (Process o st c t = Some (if 1 <? queue_size o
              then check_time_out o (emplace_back st c) t else st, c)) as ->.
    { destruct (Z.ltb_spec 1 (queue_size o)) as [Hgt|Hle].
      - by apply Process_passes.
      - unfold Process. by rewrite (proj2 (Z.ltb_ge _ _) Hle). }
    eexists _, _. split; [done|]. exists c. split; [|done].
    apply elem_of_app. right. by apply list_elem_of_singleton.
Qed.

Lemma X1_witness :
  ∃ st' out,
    Process full_options full_state {| score_ := F32.of_ratio 6 10; label_ := 1 |}
            (F64.of_int 3) = Some (st', out) ∧
    ∃ x, x ∈ inferenceQueue full_state ++
               [ {| score_ := F32.of_ratio 6 10; label_ := 1 |} ] ∧
         label_ out = label_ x.
Proof.
  apply (X1_label_from_queue full_options full_state). by vm_compute.
Defined.

(** X2: a call of an enabled stabilizer records its time stamp whether or
    not the queue was cleared or the vote ran; when that time stamp is a
    zero, the next call cannot clear the queue, whatever its own time stamp
    and the configured time-out. *)
Theorem X2_zero_time_stamp_disarms o st c t :
  1 < queue_size o →
  int32_range (queue_size o) →
  ∃ st' out,
    Process o st c t = Some (st', out) ∧
    startingGestureTime st' = t ∧
    (is_zero t →
     ∀ c' t', time_out_elapsed o st' t' = false ∧
              inferenceQueue (check_time_out o (emplace_back st' c') t') =
              inferenceQueue st' ++ [c']).
Proof.
  intros Hgt Hrange.
  destruct (Process_total o st c t Hrange) as (st' & out & HP).
  pose proof (Process_records_time _ _ _ _ _ _ Hgt HP) as Ht.
  exists st', out. split; [done|]. split; [done|].
  intros [s Hs] c' t'.
  assert (time_out_elapsed o st' t' = false) as Hno.
  { unfold time_out_elapsed. rewrite Ht, Hs. simpl. by rewrite andb_false_r. }
  split; [done|]. by rewrite check_time_out_queue, Hno.
Qed.

Lemma X2_witness :
  ∃ st' out,
    Process demo_options demo_state {| score_ := F32.of_ratio 7 10; label_ := 1 |}
            (F64.of_int 0) = Some (st', out) ∧
    startingGestureTime st' = F64.of_int 0 ∧
    time_out_elapsed demo_options st' (F64.of_int 100) = false.
Proof.
  destruct (X2_zero_time_stamp_disarms demo_options demo_state
              {| score_ := F32.of_ratio 7 10; label_ := 1 |} (F64.of_int 0))
    as (st' & out & HP & Ht & Hzero).
  - reflexivity.
  - by vm_compute.
  - exists st', out. split; [exact HP|]. split; [exact Ht|].
    apply (Hzero ltac:(by exists false)
             {| score_ := F32.of_ratio 7 10; label_ := 1 |} (F64.of_int 100)).
Defined.

(** X3: on a call of an enabled stabilizer on which the time-out does not
    fire, the current observation is the last entry of the queue the call
    leaves behind, so it always takes part in the vote when there is
    one. *)
Theorem X3_newest_entry_last o st c t :
  1 < queue_size o →
  int32_range (queue_size o) →
  time_out_elapsed o st t = false →
  ∃ st' out,
    Process o st c t = Some (st', out) ∧
    last (inferenceQueue st') = Some c.
Proof.
  intros Hgt Hrange Hno.
  pose proof (check_time_out_queue o st c t) as Hq. rewrite Hno in Hq.
  destruct (aggregation_runs o st c t) eqn:Hrun.
  - destruct (Process_aggregates _ _ _ _ Hrange Hrun)
      as (oldest & w & Eq & Hw & _ & ->).
    eexists _, _. split; [done|]. simpl.
    rewrite Hq in Eq.
    assert (last (oldest :: w) = Some c) as Hlast
      by (rewrite <- Eq; apply last_snoc).
    destruct w; [done|]. by rewrite last_cons_cons in Hlast.
  - rewrite Process_passes by done. eexists _, _. split; [done|].
    rewrite Hq. apply last_snoc.
Qed.

Lemma X3_witness :
  ∃ st' out,
    Process full_options full_state {| score_ := F32.of_ratio 6 10; label_ := 1 |}
            (F64.of_int 3) = Some (st', out) ∧
    last (inferenceQueue st') = Some {| score_ := F32.of_ratio 6 10; label_ := 1 |}.
Proof.
  apply (X3_newest_entry_last full_options full_state).
  - reflexivity.
  - by vm_compute.
  - reflexivity.
Defined.

Lemma aggregate_singleton c :
  aggregate [c] =
  {| score_ := F32.div (score_ c) (F32.of_int 1); label_ := label_ c |}.
Proof.
  destruct (aggregate_spec [c] ltac:(done)) as ((p & x & s & Ew & Hx & _) & _ & Hs).
  assert (label_ (aggregate [c]) = label_ c) as Hl.
  { destruct p as [|? [|? ?]]; [|done..]. injection Ew as <- _. done. }
  rewrite Hl in Hs. revert Hl Hs.
  unfold sum_scores, scores_of, occurrences.
  rewrite !filter_cons, !filter_nil.
  destruct (decide (label_ c = label_ c)); [|done]. simpl.
  destruct (aggregate [c]) as [s0 l0]. simpl. by intros -> ->.
Qed.

(** X4: with [queue_size = 2] the vote is over one entry, the current
    observation: every call on a reachable state returns the label of its
    input, and a call on which the vote runs leaves the queue [[c]] and
    returns the input score divided by [1]. *)
Theorem X4_two_slots_follow_input o st c t :
  queue_size o = 2 →
  reachable o st →
  ∃ st' out,
    Process o st c t = Some (st', out) ∧
    label_ out = label_ c ∧
    (aggregation_runs o st c t = true →
     inferenceQueue st' = [c] ∧
     score_ out = F32.div (score_ c) (F32.of_int 1)).
Proof.
  intros Hqs Hreach.
  assert (int32_range (queue_size o)) as Hrange by (by rewrite Hqs; vm_compute).
  pose proof (reachable_length o st Hrange ltac:(lia) Hreach) as Hlen.
  destruct (aggregation_runs o st c t) eqn:Hrun.
  - destruct (Process_aggregates _ _ _ _ Hrange Hrun)
      as (oldest & w & Eq & Hw & _ & ->).
    rewrite check_time_out_queue in Eq.
    destruct (time_out_elapsed o st t); [done|].
    assert (w = [c]) as ->.
    { destruct (inferenceQueue st) as [|a [|b q]]; simpl in *.
      - injection Eq as _ <-. done.
      - by injection Eq as _ <-.
      - lia. }
    eexists _, _. split; [done|]. rewrite aggregate_singleton. by simpl.
  - rewrite Process_passes by (done || lia).
    eexists _, _. split; [done|]. split; done.
Qed.

Lemma X4_witness :
  ∃ st' out,
    Process two_options two_state {| score_ := F32.of_ratio 9 10; label_ := 2 |}
            (F64.of_int 2) = Some (st', out) ∧
    label_ out = 2.
Proof.
  destruct (X4_two_slots_follow_input two_options two_state
              {| score_ := F32.of_ratio 9 10; label_ := 2 |} (F64.of_int 2))
    as (st' & out & HP & Hl & _).
  - reflexivity.
  - apply (reachable_Process two_options new_calculator
             {| score_ := F32.of_ratio 5 10; label_ := 1 |} (F64.of_int 1)
             two_state {| score_ := F32.of_ratio 5 10; label_ := 1 |}).
    + apply reachable_new.
    + reflexivity.
  - exists st', out. split; [exact HP|exact Hl].
Defined.

(** X5: when the time-out fires on a call of an enabled stabilizer, that
    call and the calls that follow, as long as they are fewer than
    [queue_size], return their input unchanged: after a gap the stabilizer
    starts over. *)
Theorem X5_raw_after_time_out o st c t packets :
  1 < queue_size o →
  int32_range (queue_size o) →
  time_out_elapsed o st t = true →
  Z.of_nat (length packets) < queue_size o →
  ∃ st', run o st ((c, t) :: packets) = Some (st', c :: packets.*1).
Proof.
  intros Hgt Hrange Hfire Hlen.
  pose proof (proj2 (check_time_out_cleared o st c t) Hfire) as Hq.
  assert (aggregation_runs o st c t = false) as Hno.
  { unfold aggregation_runs. rewrite Hq.
    rewrite size_t_of_int_small by (done || lia).
    apply andb_false_iff. right. apply Z.leb_gt. simpl. lia. }
  simpl. rewrite Process_passes by done. simpl.
  destruct (run_below_capacity o (check_time_out o (emplace_back st c) t) packets)
    as (st' & -> & _); [done..| |].
  - rewrite Hq. simpl. lia.
  - by exists st'.
Qed.

Lemma X5_witness :
  ∃ st',
    run demo_options demo_state
      (({| score_ := F32.of_ratio 7 10; label_ := 1 |}, F64.of_int 5)
         :: take 2 example_packets) =
    Some (st', {| score_ := F32.of_ratio 7 10; label_ := 1 |}
                 :: (take 2 example_packets).*1).
Proof.
  apply (X5_raw_after_time_out demo_options demo_state).
  - reflexivity.
  - by vm_compute.
  - reflexivity.
  - reflexivity.
Defined.

(** X6: [mostFrequent] erases from an empty queue, which is undefined, in
    one case only: [queue_size] is 0 and the time-out has just cleared the
    queue.  The guard of [Process] keeps it from being called there. *)
Theorem X6_mostFrequent_undefined o st c t :
  int32_range (queue_size o) →
  (mostFrequent o st c t = None ↔
   queue_size o = 0 ∧ time_out_elapsed o st t = true) ∧
  Process o st c t ≠ None.
Proof.
  intros Hrange. split.
  - rewrite <- (size_t_of_int_zero _ Hrange).
    rewrite <- (check_time_out_cleared o st c t).
    unfold mostFrequent, vote.
    assert (0 ≤ size_t_of_int (queue_size o)) as Hpos
      by (apply Z.mod_pos_bound; lia).
    destruct (inferenceQueue (check_time_out o (emplace_back st c) t)) as [|a q].
    + simpl length.
      destruct (size_t_of_int (queue_size o) <=? Z.of_nat 0) eqn:E.
      * apply Z.leb_le in E. split; [|done]. intros _. split; [lia|done].
      * apply Z.leb_gt in E. split; [done|]. intros [? _]. lia.
    + destruct (_ <=? _); (split; [done|]); by intros [_ ?].
  - destruct (Process_total o st c t Hrange) as (st' & out & ->). done.
Qed.

Lemma X6_witness :
  mostFrequent zero_options demo_state {| score_ := F32.of_ratio 7 10; label_ := 1 |}
               (F64.of_int 5) = None.
Proof.
  apply (X6_mostFrequent_undefined zero_options demo_state
           {| score_ := F32.of_ratio 7 10; label_ := 1 |} (F64.of_int 5)).
  - by vm_compute.
  - split; reflexivity.
Defined.

(** One call keeps the queue a suffix of what it was given plus the
    current observation. *)
Lemma Process_queue_suffix o st c t st' out :
  int32_range (queue_size o) →
  reachable o st →
  Process o st c t = Some (st', out) →
  inferenceQueue st' `suffix_of` inferenceQueue st ++ [c].
Proof.
  intros Hrange Hreach HP. destruct (aggregation_runs o st c t) eqn:Hrun.
  - destruct (Process_aggregates _ _ _ _ Hrange Hrun)
      as (oldest & w & Eq & _ & _ & HP').
    rewrite HP' in HP. injection HP as <- _. simpl.
    rewrite check_time_out_queue in Eq.
    destruct (time_out_elapsed o st t); [done|].
    exists [oldest]. by rewrite Eq.
  - destruct (Z.ltb_spec 1 (queue_size o)) as [Hgt|Hle].
    + rewrite Process_passes in HP by done. injection HP as <- _.
      rewrite check_time_out_queue.
      destruct (time_out_elapsed o st t).
      * exists (inferenceQueue st ++ [c]). by rewrite app_nil_r.
      * by exists [].
    + rewrite (reachable_disabled o st Hle Hreach) in *.
      unfold Process in HP. rewrite (proj2 (Z.ltb_ge _ _) Hle) in HP.
      injection HP as <- _. by exists [c].
Qed.

(** X7: a sequence of calls on a reachable state returns one output per
    packet, and the queue it leaves is a suffix of the queue it started
    from followed by the observations fed, in arrival order: entries are
    only ever appended at the back and removed, never reordered or
    changed. *)
Theorem X7_queue_is_suffix o st packets :
  int32_range (queue_size o) →
  reachable o st →
  ∃ st' outs,
    run o st packets = Some (st', outs) ∧
    length outs = length packets ∧
    reachable o st' ∧
    inferenceQueue st' `suffix_of` inferenceQueue st ++ packets.*1.
Proof.
  intros Hrange. revert st.
  induction packets as [|[c t] packets IH]; intros st Hreach; simpl.
  - exists st, []. repeat split; try done. exists []. by rewrite app_nil_r.
  - destruct (Process_total o st c t Hrange) as (st1 & out & HP).
    rewrite HP. simpl.
    assert (reachable o st1) as Hreach1 by (by eapply reachable_Process).
    destruct (IH st1 Hreach1) as (st' & outs & -> & Hlen & Hreach' & k & Hk).
    destruct (Process_queue_suffix _ _ _ _ _ _ Hrange Hreach HP) as (k1 & Hk1).
    exists st', (out :: outs). simpl. repeat split; try done; [by f_equal|].
    exists (k1 ++ k).
    transitivity ((inferenceQueue st ++ [c]) ++ packets.*1);
      [by rewrite <- app_assoc|].
    by rewrite Hk1, <- !app_assoc, Hk.
Qed.

Lemma X7_witness :
  ∃ st' outs,
    run demo_options demo_state example_packets = Some (st', outs) ∧
    length outs = length example_packets ∧
    reachable demo_options st' ∧
    inferenceQueue st' `suffix_of` inferenceQueue demo_state ++ example_packets.*1.
Proof.
  apply (X7_queue_is_suffix demo_options demo_state example_packets).
  - by vm_compute.
  - apply demo_state_reachable.
Defined.

Lemma newest_short n history :
  (length history ≤ n)%nat → newest n history = history.
Proof.
  intros Hlen. unfold newest.
  by replace (length history - n)%nat with 0%nat by lia.
Qed.

Lemma length_newest n history :
  (n ≤ length history)%nat → length (newest n history) = n.
Proof. intros Hlen. unfold newest. rewrite length_drop. lia. Qed.

Lemma tail_drop_snoc (xs : list inValues_t) k c :
  (k < length xs)%nat → tail (drop k xs ++ [c]) = drop (S k) xs ++ [c].
Proof.
  revert k. induction xs as [|x xs IH]; intros k Hk; simpl in *; [lia|].
  destruct k as [|k]; simpl.
  - by rewrite drop_0.
  - apply IH. lia.
Qed.

Lemma newest_snoc_full n history c :
  (0 < n ≤ length history)%nat →
  tail (newest n history ++ [c]) = newest n (history ++ [c]).
Proof.
  intros Hn. unfold newest. rewrite tail_drop_snoc by lia.
  rewrite length_app. simpl.
  replace (length history + 1 - n)%nat with (S (length history - n)) by lia.
  rewrite drop_app_le by lia. done.
Qed.

(** One call of a stabilizer without time-out whose queue holds the newest
    observations of a history. *)
Lemma Process_sliding o st seen c t :
  has_queue_time_out_s o = false →
  2 ≤ queue_size o →
  int32_range (queue_size o) →
  inferenceQueue st = newest (Z.to_nat (queue_size o - 1)) seen →
  Process o st c t =
    Some ({| inferenceQueue := newest (Z.to_nat (queue_size o - 1)) (seen ++ [c]);
             startingGestureTime := t |},
          sliding_output (queue_size o) seen c).
Proof.
  intros Hhas Hge Hrange Hq.
  assert (time_out_elapsed o st t = false) as Hno
    by (unfold time_out_elapsed; by rewrite Hhas).
  pose proof (check_time_out_queue o st c t) as Hcheck.
  rewrite Hno, Hq in Hcheck.
  unfold sliding_output.
  destruct (Z.ltb_spec (Z.of_nat (length seen) + 1) (queue_size o)) as [Hlt|Hfull].
  - rewrite newest_short in Hcheck by lia.
    rewrite Process_passes; [|done|lia|].
    + unfold check_time_out. rewrite time_out_elapsed_emplace_back, Hno.
      simpl. rewrite Hq.
      rewrite !newest_short by (rewrite ?length_app; simpl; lia). done.
    + unfold aggregation_runs. rewrite Hcheck, length_app.
      rewrite size_t_of_int_small by (done || lia).
      apply andb_false_iff. right. apply Z.leb_gt. simpl. lia.
  - assert (aggregation_runs o st c t = true) as Hrun.
    { unfold aggregation_runs. rewrite Hcheck, length_app, length_newest by lia.
      rewrite size_t_of_int_small by (done || lia).
      apply andb_true_iff. split; [apply Z.ltb_lt|apply Z.leb_le]; simpl; lia. }
    destruct (Process_aggregates _ _ _ _ Hrange Hrun)
      as (oldest & w & Eq & _ & _ & ->).
    rewrite Hcheck in Eq.
    assert (w = newest (Z.to_nat (queue_size o - 1)) (seen ++ [c])) as ->; [|done].
    rewrite <- newest_snoc_full by lia. by rewrite Eq.
Qed.

Lemma run_sliding o st seen packets :
  has_queue_time_out_s o = false →
  2 ≤ queue_size o →
  int32_range (queue_size o) →
  inferenceQueue st = newest (Z.to_nat (queue_size o - 1)) seen →
  ∃ st',
    run o st packets =
      Some (st', sliding_outputs (queue_size o) seen packets.*1) ∧
    inferenceQueue st' =
      newest (Z.to_nat (queue_size o - 1)) (seen ++ packets.*1).
Proof.
  intros Hhas Hge Hrange. revert st seen.
  induction packets as [|[c t] packets IH]; intros st seen Hq.
  - exists st. simpl. by rewrite app_nil_r.
  - cbn [run]. rewrite (Process_sliding o st seen c t) by done. simpl.
    destruct (IH {| inferenceQueue :=
                      newest (Z.to_nat (queue_size o - 1)) (seen ++ [c]);
                    startingGestureTime := t |} (seen ++ [c]))
      as (st' & -> & Hq'); [done|].
    exists st'. simpl. split; [done|]. by rewrite Hq', <- app_assoc.
Qed.

(** X8: without a time-out and with [queue_size ≥ 2], the stabilizer is a
    sliding-window vote over its input: the first [queue_size - 1] outputs
    are the inputs, every later output is the vote over the newest
    [queue_size - 1] observations, the current one included, and the queue
    left behind holds exactly the newest [queue_size - 1] observations. *)
Theorem X8_sliding_window o packets :
  has_queue_time_out_s o = false →
  2 ≤ queue_size o →
  int32_range (queue_size o) →
  ∃ st',
    run o new_calculator packets =
      Some (st', sliding_outputs (queue_size o) [] packets.*1) ∧
    inferenceQueue st' = newest (Z.to_nat (queue_size o - 1)) packets.*1.
Proof.
  intros Hhas Hge Hrange.
  by apply (run_sliding o new_calculator [] packets).
Qed.

Lemma X8_witness :
  ∃ st',
    run example_options new_calculator example_packets =
      Some (st', sliding_outputs 3 [] example_packets.*1) ∧
    inferenceQueue st' = newest 2 example_packets.*1.
Proof.
  apply (X8_sliding_window example_options example_packets).
  - reflexivity.
  - by vm_compute.
  - by vm_compute.
Defined.

Lemma occurrences_labels l (w1 w2 : list inValues_t) :
  label_ <$> w1 = label_ <$> w2 → occurrences l w1 = occurrences l w2.
Proof.
  revert w2. induction w1 as [|c1 w1 IH]; intros [|c2 w2] Heq; try done.
  injection Heq as Hc Hw. specialize (IH _ Hw). revert IH.
  unfold occurrences. rewrite !filter_cons, Hc.
  destruct (decide (label_ c2 = l)); simpl; lia.
Qed.

Lemma track_loop_labels (w1 w2 : list inValues_t) :
  label_ <$> w1 = label_ <$> w2 → (track_loop w1).2 = (track_loop w2).2.
Proof.
  revert w2. induction w1 as [|c1 w1 IH] using rev_ind; intros w2 Heq.
  - by destruct w2.
  - destruct w2 as [|c2 w2 _] using rev_ind.
    { rewrite fmap_app in Heq. by destruct (label_ <$> w1). }
    pose proof (occurrences_labels (label_ c1) _ _ Heq) as Hocc.
    rewrite !fmap_app in Heq. simpl in Heq.
    apply app_inj_tail in Heq as [Hw Hc].
    specialize (IH _ Hw).
    rewrite !track_loop_snoc.
    destruct (track_loop_spec w1) as [Ht1 _].
    destruct (track_loop_spec w2) as [Ht2 _].
    destruct (track_loop w1) as [tr1 hi1], (track_loop w2) as [tr2 hi2].
    cbn [fst snd] in *.
    rewrite (track_step_highest w1), (track_step_highest w2) by done.
    by rewrite <- Hc, <- Hocc, IH.
Qed.

(** X9: which label wins the vote depends on the labels of the window
    alone: two windows that carry the same labels in the same order have
    the same winner, whatever their scores. *)
Theorem X9_winner_ignores_scores (w1 w2 : list inValues_t) :
  label_ <$> w1 = label_ <$> w2 →
  label_ (aggregate w1) = label_ (aggregate w2).
Proof.
  intros Heq. pose proof (track_loop_labels w1 w2 Heq) as Hhi.
  unfold aggregate.
  destruct (track_loop w1) as [tr1 hi1], (track_loop w2) as [tr2 hi2].
  simpl in *. by rewrite Hhi.
Qed.

Lemma X9_witness :
  label_ (aggregate tie_window) =
  label_ (aggregate [ {| score_ := F32.of_ratio 1 10; label_ := 2 |};
                      {| score_ := S754_nan; label_ := 1 |} ]).
Proof. apply X9_winner_ignores_scores. reflexivity. Defined.

Lemma F32_add_nan_l y : F32.add S754_nan y = S754_nan.
Proof. reflexivity. Qed.

Lemma F32_add_nan_r x : F32.add x S754_nan = S754_nan.
Proof. by destruct x. Qed.

Lemma foldl_add_nan ss : foldl F32.add S754_nan ss = S754_nan.
Proof.
  induction ss as [|s ss IH]; [done|]. cbn [foldl]. by rewrite F32_add_nan_l.
Qed.

Lemma sum_f32_nan ss : S754_nan ∈ ss → sum_f32 ss = S754_nan.
Proof.
  intros (pre & post & ->)%list_elem_of_split.
  destruct pre as [|s pre]; cbn [sum_f32 app].
  - apply foldl_add_nan.
  - rewrite foldl_app. cbn [foldl]. rewrite F32_add_nan_r. apply foldl_add_nan.
Qed.

(** X10: in a vote over a window that is not empty, one entry of the
    winning label whose score is a NaN makes the returned score a NaN. *)
Theorem X10_nan_score_spreads w x :
  w ≠ [] →
  x ∈ w →
  label_ x = label_ (aggregate w) →
  score_ x = S754_nan →
  score_ (aggregate w) = S754_nan.
Proof.
  intros Hw Hx Hl Hnan. destruct (aggregate_spec w Hw) as (_ & _ & ->).
  unfold sum_scores. rewrite sum_f32_nan; [done|].
  rewrite <- Hnan. unfold scores_of. apply list_elem_of_fmap.
  exists x. split; [done|]. by apply list_elem_of_filter.
Qed.

Lemma X10_witness :
  score_ (aggregate [ {| score_ := S754_nan; label_ := 2 |};
                      {| score_ := F32.of_ratio 6 10; label_ := 2 |};
                      {| score_ := F32.of_ratio 9 10; label_ := 1 |} ]) = S754_nan.
Proof.
  apply (X10_nan_score_spreads _ {| score_ := S754_nan; label_ := 2 |}).
  - discriminate.
  - apply elem_of_cons. by left.
  - by vm_compute.
  - reflexivity.
Defined.

(** X11: on every call on a reachable state on which the vote runs, the
    counts kept in [trackInferences] and in [highestOccurrence] stay
    between 0 and [queue_size - 1] at every step of the loop, so the
    [int32] increments of line 190 never overflow. *)
Theorem X11_counts_never_overflow o st c t :
  int32_range (queue_size o) →
  reachable o st →
  aggregation_runs o st c t = true →
  ∃ st' out,
    Process o st c t = Some (st', out) ∧
    ∀ p l,
      p `prefix_of` inferenceQueue st' →
      0 ≤ counts (track_at (track_loop p).1 l) ≤ queue_size o - 1 ∧
      0 ≤ count (track_loop p).2 ≤ queue_size o - 1 ∧
      queue_size o - 1 < INT32_MAX.
Proof.
  intros Hrange Hreach Hrun.
  destruct (Process_total o st c t Hrange) as (st' & out & HP).
  exists st', out. split; [done|]. intros p l [k Hk].
  assert (1 < queue_size o) as Hgt.
  { unfold aggregation_runs in Hrun.
    apply andb_true_iff in Hrun as [Hgt _]. by apply Z.ltb_lt. }
  pose proof (reachable_length o st' Hrange Hgt
                (reachable_Process _ _ _ _ _ _ Hreach HP)) as Hlen.
  rewrite Hk, length_app in Hlen.
  destruct (track_loop_spec p) as [Ht (Hmax & Hnil & Hfirst)].
  rewrite (track_at_tracked p) by done.
  pose proof (occurrences_le_length l p).
  pose proof (occurrences_nonneg l p).
  split; [|split].
  - case_decide; simpl; lia.
  - destruct p as [|a p].
    + rewrite Hnil by done. simpl. lia.
    + pose proof (first_to_reach_count _ _ _ (Hfirst ltac:(done)) Hmax) as Hc.
      pose proof (occurrences_le_length (label (track_loop (a :: p)).2) (a :: p)).
      pose proof (occurrences_nonneg (label (track_loop (a :: p)).2) (a :: p)).
      lia.
  - unfold int32_range in Hrange. lia.
Qed.

Lemma X11_witness :
  ∃ st' out,
    Process full_options full_state {| score_ := F32.of_ratio 6 10; label_ := 1 |}
            (F64.of_int 3) = Some (st', out) ∧
    0 ≤ count (track_loop (inferenceQueue st')).2 ≤ queue_size full_options - 1.
Proof.
  destruct (X11_counts_never_overflow full_options full_state
              {| score_ := F32.of_ratio 6 10; label_ := 1 |} (F64.of_int 3))
    as (st' & out & HP & Hb).
  - by vm_compute.
  - apply full_state_reachable.
  - reflexivity.
  - exists st', out. split; [exact HP|].
    apply (Hb (inferenceQueue st') 0). exists []. symmetry. apply app_nil_r.
Defined.

Lemma occurrences_app l w1 w2 :
  occurrences l (w1 ++ w2) = occurrences l w1 + occurrences l w2.
Proof. unfold occurrences. rewrite filter_app, length_app. lia. Qed.

Lemma occurrences_cons_le l x w :
  occurrences l w ≤ occurrences l (x :: w) ≤ 1 + occurrences l w.
Proof.
  unfold occurrences. rewrite filter_cons.
  destruct (decide (label_ x = l)); simpl; lia.
Qed.

Lemma occurrences_all l w :
  (∀ y, y ∈ w → label_ y = l) →
  occurrences l w = Z.of_nat (length w) ∧
  ∀ l', l' ≠ l → occurrences l' w = 0.
Proof.
  induction w as [|y w IH]; intros Hall; [done|].
  destruct IH as [IHl IHo]; [intros z Hz; apply Hall; by apply elem_of_cons; right|].
  assert (label_ y = l) as Hy by (apply Hall; apply elem_of_cons; by left).
  unfold occurrences in *. split.
  - rewrite filter_cons. destruct (decide (label_ y = l)); [|done].
    simpl length. lia.
  - intros l' Hl'. rewrite filter_cons.
    destruct (decide (label_ y = l')); [congruence|]. by apply IHo.
Qed.

(** X16: with [queue_size ≥ 4], on a call on which the vote runs, a single
    entry with a different label cannot change the result: when all
    entries of the queue voted over but one carry label [l], the call
    returns [l]. *)
Theorem X16_single_outlier o st c t l :
  int32_range (queue_size o) →
  4 ≤ queue_size o →
  aggregation_runs o st c t = true →
  ∃ st' out,
    Process o st c t = Some (st', out) ∧
    ((∃ p x s, inferenceQueue st' = p ++ x :: s ∧
               ∀ y, y ∈ p ++ s → label_ y = l) →
     label_ out = l).
Proof.
  intros Hrange Hqs Hrun.
  destruct (Process_aggregates _ _ _ _ Hrange Hrun)
    as (oldest & w & _ & Hw & Hfull & ->).
  eexists _, _. split; [done|]. simpl.
  intros (p & x & s & -> & Hall).
  destruct (aggregate_spec _ Hw) as (_ & Hmax & _).
  set (win := label_ (aggregate (p ++ x :: s))) in *.
  destruct (decide (win = l)) as [|Hne]; [done|].
  destruct (occurrences_all l (p ++ s) Hall) as [Hl Hother].
  specialize (Hother win Hne). specialize (Hmax l).
  rewrite !occurrences_app in *.
  pose proof (occurrences_cons_le win x s).
  pose proof (occurrences_cons_le l x s).
  rewrite !length_app in *. simpl length in *. lia.
Qed.

Lemma X16_witness :
  ∃ st' out,
    Process full_options outlier_state
            {| score_ := F32.of_ratio 6 10; label_ := 1 |} (F64.of_int 3) =
      Some (st', out) ∧
    label_ out = 1.
Proof.
  destruct (X16_single_outlier full_options outlier_state
              {| score_ := F32.of_ratio 6 10; label_ := 1 |} (F64.of_int 3) 1)
    as (st' & out & HP & Hl).
  - by vm_compute.
  - by vm_compute.
  - reflexivity.
  - exists st', out. split; [exact HP|]. apply Hl.
    injection HP as <- _.
    exists [], {| score_ := F32.of_ratio 9 10; label_ := 2 |},
      [ {| score_ := F32.of_ratio 7 10; label_ := 1 |};
        {| score_ := F32.of_ratio 6 10; label_ := 1 |} ].
    split; [reflexivity|].
    intros y Hy. simpl in Hy.
    apply elem_of_cons in Hy as [->|Hy]; [reflexivity|].
    apply elem_of_cons in Hy as [->|Hy]; [reflexivity|].
    by apply elem_of_nil in Hy.
Defined.

(** * The selection loop *)

Ltac order_cases :=
  repeat match goal with
  | |- context [(?a ?= ?b)%Z] => destruct (Z.compare_spec a b)
  | |- context [PosDef.Pos.compare_cont Eq ?a ?b] =>
      change (PosDef.Pos.compare_cont Eq a b) with (Pos.compare a b);
      destruct (Pos.compare_spec a b)
  end; simpl; intros; try done; try lia.

Lemma SFltb_irrefl a : SFltb a a = false.
Proof.
  unfold SFltb, SFcompare. destruct a as [[]|[]| |[] m e]; try done; order_cases.
Qed.

Lemma SFltb_trans a b c :
  SFltb a b = true → SFltb b c = true → SFltb a c = true.
Proof.
  unfold SFltb, SFcompare.
  destruct a as [[]|[]| |[] m1 e1], b as [[]|[]| |[] m2 e2],
           c as [[]|[]| |[] m3 e3]; try done; order_cases.
Qed.

Lemma SFltb_leb_trans a b c :
  SFltb a b = true → SFleb b c = true → SFltb a c = true.
Proof.
  unfold SFltb, SFleb, SFcompare.
  destruct a as [[]|[]| |[] m1 e1], b as [[]|[]| |[] m2 e2],
           c as [[]|[]| |[] m3 e3]; try done; order_cases.
Qed.

Lemma select_snoc raw_floats (k : nat) init :
  select raw_floats (Z.of_nat (S k)) init =
  select_step raw_floats (select raw_floats (Z.of_nat k) init) k.
Proof.
  unfold select. rewrite !Nat2Z.id, seq_S, foldl_app. done.
Qed.

Lemma selected_step raw_floats init k r x :
  selected raw_floats init k r →
  raw_floats !! k = Some x →
  selected raw_floats init (S k)
    (if float_gtb x (score_ r) then {| score_ := x; label_ := Z.of_nat k |} else r).
Proof.
  unfold selected, float_gtb.
  intros [Hmax Hfrom] Hx. destruct (SFltb (score_ r) x) eqn:Hgt.
  - split; simpl.
    + intros j y Hj Hy. destruct (decide (j = k)) as [->|Hne].
      * assert (y = x) as -> by congruence. apply SFltb_irrefl.
      * destruct (SFltb x y) eqn:Hxy; [|done].
        rewrite <- (Hmax j y ltac:(lia) Hy). symmetry.
        by apply (SFltb_trans _ x).
    + right. exists k. split; [lia|]. split; [done|]. split; [done|]. split.
      * destruct Hfrom as [->|(i & _ & _ & _ & Hi & _)]; [done|].
        by apply (SFltb_trans _ (score_ r)).
      * intros j y Hj Hy. destruct (SFleb x y) eqn:Hxy; [|done].
        rewrite <- (Hmax j y Hj Hy). symmetry.
        by apply (SFltb_leb_trans _ x).
  - split.
    + intros j y Hj Hy. destruct (decide (j = k)) as [->|Hne].
      * by assert (y = x) as -> by congruence.
      * apply (Hmax j y); [lia|done].
    + destruct Hfrom as [->|(i & Hi & Hrest)]; [by left|].
      right. exists i. split; [lia|done].
Qed.

(** The loop invariant, as long as the reads stay within the buffer. *)
Lemma select_selected raw_floats (k : nat) init :
  (k ≤ length raw_floats)%nat →
  ∃ r, select raw_floats (Z.of_nat k) init = Some r ∧
       selected raw_floats init k r.
Proof.
  induction k as [|k IH]; intros Hk.
  - exists init. split; [done|]. split; [|by left]. intros; lia.
  - destruct IH as (r & Hr & Hsel); [lia|].
    destruct (lookup_lt_is_Some_2 raw_floats k ltac:(lia)) as [x Hx].
    rewrite select_snoc, Hr. unfold select_step. simpl. rewrite Hx. simpl.
    eexists. split; [done|]. by apply selected_step.
Qed.

Lemma select_step_None raw_floats l :
  foldl (select_step raw_floats) None l = None.
Proof. by induction l. Qed.

(** X12: the selection loop reads outside the buffer of the tensor, where
    its behaviour is undefined, exactly when the dimension [n] it runs to
    exceeds the number of floats in the buffer; a dimension that is zero or
    negative makes it run no iteration and leave [currentInference] as it
    was. *)
Theorem X12_select_bounds raw_floats n init :
  (select raw_floats n init = None ↔ Z.of_nat (length raw_floats) < n) ∧
  (n ≤ 0 → select raw_floats n init = Some init).
Proof.
  split.
  - split.
    + intros Hnone. destruct (Z.lt_ge_cases (Z.of_nat (length raw_floats)) n)
        as [|Hle]; [done|].
      destruct (Z.le_gt_cases n 0) as [Hn|Hn].
      * unfold select in Hnone.
        by replace (Z.to_nat n) with 0%nat in Hnone by lia.
      * destruct (select_selected raw_floats (Z.to_nat n) init) as (r & Hr & _);
          [lia|]. rewrite Z2Nat.id in Hr by lia. congruence.
    + intros Hlt. unfold select.
      replace (Z.to_nat n)
        with (length raw_floats + S (Z.to_nat n - S (length raw_floats)))%nat
        by lia.
      rewrite seq_app, foldl_app. simpl.
      destruct (foldl _ _ (seq 0 (length raw_floats))) as [r|]; simpl.
      * rewrite (lookup_ge_None_2 raw_floats) by lia. simpl.
        apply select_step_None.
      * apply select_step_None.
  - intros Hn. unfold select. by replace (Z.to_nat n) with 0%nat by lia.
Qed.

Lemma X12_witness :
  select demo_floats 5 {| score_ := F32.of_ratio 0 1; label_ := 0 |} = None.
Proof.
  apply (X12_select_bounds demo_floats 5). reflexivity.
Defined.

(** X13: when the loop stays within the buffer, it returns a value whose
    score no float among the first [n] is greater than; that value is
    either the initial one, or index and float of an entry that is greater
    than the initial score. *)
Theorem X13_select_maximum raw_floats n init :
  0 ≤ n ≤ Z.of_nat (length raw_floats) →
  ∃ r,
    select raw_floats n init = Some r ∧
    (∀ j x, Z.of_nat j < n → raw_floats !! j = Some x →
            float_gtb x (score_ r) = false) ∧
    (r = init ∨
     0 ≤ label_ r < n ∧
     raw_floats !! Z.to_nat (label_ r) = Some (score_ r) ∧
     float_gtb (score_ r) (score_ init) = true).
Proof.
  intros Hn.
  destruct (select_selected raw_floats (Z.to_nat n) init)
    as (r & Hr & Hmax & Hfrom); [lia|].
  rewrite Z2Nat.id in Hr by lia. exists r. split; [done|]. split.
  - intros j x Hj. apply Hmax. lia.
  - destruct Hfrom as [->|(i & Hi & Hl & Hx & Hgt & _)]; [by left|].
    right. rewrite Hl, Nat2Z.id. split; [lia|done].
Qed.

Lemma X13_witness :
  ∃ r,
    select demo_floats 4 {| score_ := F32.of_ratio 0 1; label_ := 0 |} = Some r ∧
    ∀ j x, Z.of_nat j < 4 → demo_floats !! j = Some x →
           float_gtb x (score_ r) = false.
Proof.
  destruct (X13_select_maximum demo_floats 4
              {| score_ := F32.of_ratio 0 1; label_ := 0 |})
    as (r & Hr & Hmax & _).
  - by vm_compute.
  - exists r. split; [exact Hr|exact Hmax].
Defined.

(** X14: when the loop selects an entry, it is the first one that reaches
    the score returned: every float before the selected index is smaller
    than the returned score or is a NaN, so among equal greatest floats the
    lowest index wins. *)
Theorem X14_select_first raw_floats n init r :
  0 ≤ n ≤ Z.of_nat (length raw_floats) →
  select raw_floats n init = Some r →
  r ≠ init →
  ∀ j x, Z.of_nat j < label_ r → raw_floats !! j = Some x →
         SFleb (score_ r) x = false.
Proof.
  intros Hn Hr Hne.
  destruct (select_selected raw_floats (Z.to_nat n) init)
    as (r' & Hr' & _ & Hfrom); [lia|].
  rewrite Z2Nat.id in Hr' by lia.
  assert (r' = r) as -> by congruence.
  destruct Hfrom as [->|(i & _ & Hl & _ & _ & Hfirst)]; [done|].
  intros j x Hj. apply Hfirst. lia.
Qed.

Lemma X14_witness :
  select demo_floats 4 {| score_ := F32.of_ratio 0 1; label_ := 0 |} =
    Some {| score_ := F32.of_ratio 7 10; label_ := 1 |} ∧
  ∀ j x, Z.of_nat j < 1 → demo_floats !! j = Some x →
         SFleb (F32.of_ratio 7 10) x = false.
Proof.
  split; [reflexivity|].
  apply (X14_select_first demo_floats 4
           {| score_ := F32.of_ratio 0 1; label_ := 0 |}
           {| score_ := F32.of_ratio 7 10; label_ := 1 |}).
  - by vm_compute.
  - reflexivity.
  - discriminate.
Defined.

Lemma float_gtb_nan_l x : float_gtb S754_nan x = false.
Proof. by destruct x as [[]|[]| |[] m e]. Qed.

Lemma float_gtb_nan_r x : float_gtb x S754_nan = false.
Proof. reflexivity. Qed.

(** X15: a NaN is never selected and never replaced: when the score held
    at the start is a NaN, or every float read is a NaN, the loop returns
    the initial value of [currentInference] unchanged. *)
Theorem X15_select_nan raw_floats n init :
  n ≤ Z.of_nat (length raw_floats) →
  score_ init = S754_nan ∨
    (∀ j x, Z.of_nat j < n → raw_floats !! j = Some x → x = S754_nan) →
  select raw_floats n init = Some init.
Proof.
  intros Hn Hnan.
  destruct (Z.le_gt_cases n 0) as [Hle|Hpos].
  { unfold select. by replace (Z.to_nat n) with 0%nat by lia. }
  rewrite <- (Z2Nat.id n) by lia.
  assert (Z.to_nat n ≤ length raw_floats)%nat as Hk by lia.
  assert (∀ j x, (j < Z.to_nat n)%nat → raw_floats !! j = Some x →
                 float_gtb x (score_ init) = false) as Hno.
  { intros j x Hj Hx. destruct Hnan as [->|Hall]; [apply float_gtb_nan_r|].
    rewrite (Hall j x) by (done || lia). apply float_gtb_nan_l. }
  clear Hnan Hn Hpos. induction (Z.to_nat n) as [|k IH]; [done|].
  rewrite select_snoc, IH; [|lia|intros j x Hj; apply Hno; lia].
  destruct (lookup_lt_is_Some_2 raw_floats k ltac:(lia)) as [x Hx].
  unfold select_step. simpl. rewrite Hx. simpl.
  by rewrite (Hno k x) by (done || lia).
Qed.

Lemma X15_witness :
  select demo_floats 4 {| score_ := S754_nan; label_ := 7 |} =
  Some {| score_ := S754_nan; label_ := 7 |}.
Proof.
  apply (X15_select_nan demo_floats 4).
  - by vm_compute.
  - left. reflexivity.
Defined.
